(** * awspirin-lib: the headless policy core

    A shallow embedding of the identifier (ARN) utilities of
    [src/utils/arn.ts], the dependency resolver of [src/utils/dependencies.ts]
    and the policy engine of [src/core/PolicyCore.ts], with the properties the
    specification states about them.

    Conventions.
    - A JavaScript string is a [string]: a sequence of code units, here the
      code units below 256.  The only regular-expression behaviour that depends
      on the code unit is the line-terminator test of [.]; of the four line
      terminators, line feed and carriage return are below 256.
    - A [Map] is an insertion-ordered association list ([JSMap]); a [Set] is a
      duplicate-free list in insertion order; a plain object used as a record
      of entries (the dependency table) is a [gmap].
    - [undefined] and [null] for an optional field are [None]. *)

From Stdlib Require Import String Ascii List Arith Lia Bool NArith.
From stdpp Require Import base option gmap strings list fin_maps.

Local Open Scope string_scope.
Local Open Scope list_scope.
#[local] Arguments String.append : simpl nomatch.
#[local] Set Warnings "-clear-no-such-hyp".

(** ** The JavaScript built-ins the sources call *)

Module JS.

(** [s.split(sep)] for a one-character separator: never empty. *)
Fixpoint split (sep : ascii) (s : string) : list string :=
  match s with
  | EmptyString => [EmptyString]
  | String c s' =>
      if Ascii.eqb c sep then EmptyString :: split sep s'
      else match split sep s' with
           | h :: t => String c h :: t
           | [] => [String c EmptyString]
           end
  end.

(** [parts.join(sep)]. *)
Definition join (sep : string) (parts : list string) : string :=
  String.concat sep parts.

(** [s.includes(sub)]. *)
Fixpoint includes (sub s : string) : bool :=
  String.prefix sub s ||
  match s with
  | EmptyString => false
  | String _ s' => includes sub s'
  end.

(** No character of [s] is [c]. *)
Definition free_of (c : ascii) (s : string) : bool :=
  forallb (fun d => negb (Ascii.eqb d c)) (list_ascii_of_string s).

(** [s.replace(/c/g, by)] for a one-character pattern [c] and a replacement
    text [by] without substitution patterns. *)
Fixpoint replaceAll (c : ascii) (by_ : string) (s : string) : string :=
  match s with
  | EmptyString => EmptyString
  | String d s' =>
      if Ascii.eqb d c then by_ +:+ replaceAll c by_ s'
      else String d (replaceAll c by_ s')
  end.

(** [set.has(x)] and [set.add(x)] on an insertion-ordered [Set<string>]. *)
Definition has (x : string) (set : list string) : bool :=
  bool_decide (x ∈ set).

Definition add (x : string) (set : list string) : list string :=
  if has x set then set else set ++ [x].

(** [new Set(xs)], and with it [[...new Set(xs)]] and [Array.from(set)]:
    the first occurrence of every element, in order. *)
Definition newSet (xs : list string) : list string :=
  fold_left (fun set x => add x set) xs [].

(** [xs.sort()] with the default comparison: code-unit order. *)
Fixpoint insert_sorted (x : string) (xs : list string) : list string :=
  match xs with
  | [] => [x]
  | y :: ys => if String.leb x y then x :: y :: ys else y :: insert_sorted x ys
  end.

Definition sort (xs : list string) : list string :=
  fold_right insert_sorted [] xs.

(** In code-unit order. *)
Inductive sorted : list string -> Prop :=
| sorted_nil : sorted []
| sorted_one x : sorted [x]
| sorted_cons x y l : String.leb x y = true -> sorted (y :: l) -> sorted (x :: y :: l).

(** [a || b] on an optional string: [undefined] and the empty string are
    falsy. *)
Definition orElse (a : option string) (b : string) : string :=
  match a with
  | Some s => if String.eqb s EmptyString then b else s
  | None => b
  end.

End JS.

(** ** Regular expressions

    Every regular expression of the sources has the form [^ t1 t2 ... tn $]
    without flags, where each [ti] is one character, [.], or a character
    class, possibly quantified by [*] or [+], possibly inside a capturing
    group of its own.  [regex] is the list of the [ti]; the anchors are
    implicit.  [exec] is the backtracking matcher of the language: a
    quantifier is greedy and gives characters back one at a time. *)

Module RegExp.

Inductive atom :=
| Chr (c : ascii)                      (* an ordinary or escaped character *)
| Dot                                  (* [.] *)
| NotChr (c : ascii)                   (* [[^c]] *)
| Class (ranges : list (ascii * ascii)). (* [[a-z0-9-]] *)

Inductive quantifier := Once | Star | Plus.

Record term := Term { t_atom : atom; t_quant : quantifier; t_group : bool }.

Definition regex := list term.

Definition isLineTerminator (c : ascii) : bool :=
  Ascii.eqb c "010" || Ascii.eqb c "013".

Definition in_range (c : ascii) (r : ascii * ascii) : bool :=
  (N_of_ascii (fst r) <=? N_of_ascii c)%N && (N_of_ascii c <=? N_of_ascii (snd r))%N.

Definition atom_matches (a : atom) (c : ascii) : bool :=
  match a with
  | Chr d => Ascii.eqb c d
  | Dot => negb (isLineTerminator c)
  | NotChr d => negb (Ascii.eqb c d)
  | Class ranges => existsb (in_range c) ranges
  end.

(** The captures of a match, in the order of the groups. *)
Definition capture (grouped : bool) (text : string) (rest : option (list string))
  : option (list string) :=
  if grouped then cons text <$> rest else rest.

(** Greedy repetition of [a] on [s], [taken] being what the repetition has
    consumed so far; [k] continues with the text taken and the remainder. *)
Fixpoint greedy (a : atom) (k : string -> string -> option (list string))
         (taken s : string) : option (list string) :=
  match s with
  | String c s' =>
      if atom_matches a c then
        match greedy a k (taken +:+ String c EmptyString) s' with
        | Some r => Some r
        | None => k taken s
        end
      else k taken s
  | EmptyString => k taken s
  end.

Fixpoint exec (re : regex) (s : string) : option (list string) :=
  match re with
  | [] => match s with EmptyString => Some [] | _ => None end
  | t :: re' =>
      let k := fun taken rest => capture (t_group t) taken (exec re' rest) in
      match t_quant t with
      | Once =>
          match s with
          | String c s' =>
              if atom_matches (t_atom t) c then k (String c EmptyString) s' else None
          | EmptyString => None
          end
      | Star => greedy (t_atom t) k EmptyString s
      | Plus =>
          match s with
          | String c s' =>
              if atom_matches (t_atom t) c
              then greedy (t_atom t) k (String c EmptyString) s' else None
          | EmptyString => None
          end
      end
  end.

(** [re.test(s)]. *)
Definition test (re : regex) (s : string) : bool :=
  match exec re s with Some _ => true | None => false end.

(** Pattern text that stands for itself. *)
Fixpoint lit (s : string) : regex :=
  match s with
  | EmptyString => []
  | String c s' => Term (Chr c) Once false :: lit s'
  end.

Definition star (a : atom) : regex := [Term a Star false].
Definition plus (a : atom) : regex := [Term a Plus false].
Definition group (re : regex) : regex :=
  map (fun t => Term (t_atom t) (t_quant t) true) re.

Definition ungroup (re : regex) : regex :=
  map (fun t => Term (t_atom t) (t_quant t) false) re.

(** What a match is: the text is cut into one piece per term, every piece
    made of characters of the term's atom and as long as its quantifier
    allows; the pieces of the groups are the captures. *)
Definition all_match (a : atom) (w : string) : bool :=
  forallb (atom_matches a) (list_ascii_of_string w).

Definition fits (t : term) (w : string) : Prop :=
  all_match (t_atom t) w = true /\
  match t_quant t with
  | Once => String.length w = 1
  | Star => True
  | Plus => w <> EmptyString
  end.

(** A repetition of [a] cannot go on into [s]. *)
Definition stops (a : atom) (s : string) : Prop :=
  match s with
  | EmptyString => True
  | String c _ => atom_matches a c = false
  end.

Inductive matches : regex -> string -> list string -> Prop :=
| matches_nil : matches [] EmptyString []
| matches_cons t re w s caps :
    fits t w -> matches re s caps ->
    matches (t :: re) (w +:+ s) (if t_group t then w :: caps else caps).

(** *** [new RegExp(source)]

    The patterns built at run time come from a caller's text.  [RegExp_new]
    reads the part of the pattern language above: a source [^ ... $] of
    ordinary characters, escaped syntax characters, [.], and the quantifiers
    [*] and [+].  A quantifier with nothing to repeat is the language's
    [SyntaxError]; a source that uses any other construct is [NotModelled]. *)

Inductive compiled := Compiled (re : regex) | SyntaxError | NotModelled.

Definition isSyntaxCharacter (c : ascii) : bool :=
  existsb (Ascii.eqb c)
    ["^"; "$"; "\"; "."; "*"; "+"; "?"; "("; ")"; "["; "]"; "{"; "}"; "|"]%char.

Definition quantify (q : quantifier) (done : list term) : option (list term) :=
  match done with
  | Term a Once g :: done' => Some (Term a q g :: done')
  | _ => None
  end.

(** [done] holds the terms read so far, last one first. *)
Fixpoint compile_terms (src : string) (done : list term) : compiled :=
  match src with
  | EmptyString => NotModelled
  | String c rest =>
      if Ascii.eqb c "$" then
        match rest with
        | EmptyString => Compiled (rev done)
        | _ => NotModelled
        end
      else if Ascii.eqb c "\" then
        match rest with
        | EmptyString => SyntaxError
        | String d rest' =>
            if isSyntaxCharacter d
            then compile_terms rest' (Term (Chr d) Once false :: done)
            else NotModelled
        end
      else if Ascii.eqb c "." then compile_terms rest (Term Dot Once false :: done)
      else if Ascii.eqb c "*" then
        match quantify Star done with
        | Some done' => compile_terms rest done'
        | None => SyntaxError
        end
      else if Ascii.eqb c "+" then
        match quantify Plus done with
        | Some done' => compile_terms rest done'
        | None => SyntaxError
        end
      else if isSyntaxCharacter c then NotModelled
      else compile_terms rest (Term (Chr c) Once false :: done)
  end.

Definition RegExp_new (source : string) : compiled :=
  match source with
  | String "^" body => compile_terms body []
  | _ => NotModelled
  end.

End RegExp.

(** ** [src/utils/arn.ts] *)

Module Arn.
Import JS RegExp.

Record ParsedARN := {
  partition : string;
  service : string;
  region : string;
  accountId : string;
  resource : string;
  resourceType : option string;
}.

(** [/^arn:(P):(P):(S):(S):(.+)$/], where [P] is [[^:]+] and [S] is [[^:]] under
    a star. *)
Definition parsePattern : regex :=
  lit "arn:" ++ group (plus (NotChr ":")) ++ lit ":" ++ group (plus (NotChr ":"))
    ++ lit ":" ++ group (star (NotChr ":")) ++ lit ":" ++ group (star (NotChr ":"))
    ++ lit ":" ++ group (plus Dot).

Definition parseARN (arn : string) : option ParsedARN :=
  match exec parsePattern arn with
  | Some [partition; service; region; accountId; resourcePart] =>
      let '(resourceType, resource) :=
        if String.eqb service "s3" then (None, resourcePart)
        else if includes "/" resourcePart then
          let parts := split "/" resourcePart in
          (Some (hd EmptyString parts), join "/" (tl parts))
        else if includes ":" resourcePart then
          let parts := split ":" resourcePart in
          (Some (hd EmptyString parts), join ":" (tl parts))
        else (None, resourcePart) in
      Some {| partition := partition; service := service; region := region;
              accountId := accountId; resource := resource;
              resourceType := resourceType |}
  | _ => None
  end.

(** The resource type is tested for truthiness: an empty one counts as
    absent. *)
Definition formatARN (parsed : ParsedARN) : string :=
  let resourcePart :=
    match resourceType parsed with
    | Some t => if String.eqb t EmptyString then resource parsed
                else t +:+ "/" +:+ resource parsed
    | None => resource parsed
    end in
  "arn:" +:+ partition parsed +:+ ":" +:+ service parsed +:+ ":" +:+ region parsed
    +:+ ":" +:+ accountId parsed +:+ ":" +:+ resourcePart.

(** The same pattern without the capturing groups. *)
Definition formatPattern : regex :=
  lit "arn:" ++ plus (NotChr ":") ++ lit ":" ++ plus (NotChr ":")
    ++ lit ":" ++ star (NotChr ":") ++ lit ":" ++ star (NotChr ":")
    ++ lit ":" ++ plus Dot.

Definition validateARNFormat (arn : string) : bool := test formatPattern arn.

(** What a call does: it returns a value or throws.  [Unknown] marks a
    pattern whose regular expression is outside the modelled language. *)
Inductive outcome := Returns (b : bool) | Throws | Unknown.

Definition matchARNPattern (arn pattern : string) : outcome :=
  let regexPattern :=
    replaceAll "$" "\$" (replaceAll "?" "." (replaceAll "*" ".*" pattern)) in
  match RegExp_new ("^" +:+ regexPattern +:+ "$") with
  | Compiled regex => Returns (test regex arn)
  | SyntaxError => Throws
  | NotModelled => Unknown
  end.

(** [parsed?.service || null] and [parsed?.resourceType || null]: an empty
    text is falsy, and gives null like a missing one. *)
Definition extractServiceFromARN (arn : string) : option string :=
  match parseARN arn with
  | Some parsed =>
      if String.eqb (service parsed) EmptyString then None else Some (service parsed)
  | None => None
  end.

Definition extractResourceTypeFromARN (arn : string) : option string :=
  match parseARN arn with
  | Some parsed =>
      match resourceType parsed with
      | Some t => if String.eqb t EmptyString then None else Some t
      | None => None
      end
  | None => None
  end.

(** The pattern language the specification describes: [*] for any run of
    characters, [?] for one character, any other character for itself. *)
Definition globTerm (c : ascii) : term :=
  if Ascii.eqb c "*" then Term Dot Star false
  else if Ascii.eqb c "?" then Term Dot Once false
  else Term (Chr c) Once false.

Definition globRegex (pattern : string) : regex :=
  map globTerm (list_ascii_of_string pattern).

(** The characters [matchARNPattern] treats as the specification says: the
    three it replaces, and those without a meaning in a regular expression. *)
Definition plain (c : ascii) : bool :=
  Ascii.eqb c "*" || Ascii.eqb c "?" || Ascii.eqb c "$" || negb (isSyntaxCharacter c).

End Arn.

(** ** [src/utils/dependencies.ts] *)

Module Dependencies.
Import JS.

(** One entry of a dependency table. *)
Module Entry.
Record t := {
  actions : option (list string);
  dependencies : option (list string);
  requires : option (list string);
  soft_requires : option (list string);
  description : option string;
}.
End Entry.

Record DependencyConfig := {
  service : string;
  dependencies : gmap string Entry.t;
}.

(** The three collections of the loop.  [toProcess] is used as a stack, by
    [push] and [pop] at its end; it is kept here with that end first. *)
Record loop_state := {
  resolved : list string;
  toProcess : list string;
  processed : list string;
}.

Definition push_unprocessed (processed : list string) (stack : list string)
           (dep : string) : list string :=
  if has dep processed then stack else dep :: stack.

(** One iteration of the [while] loop, on a non-empty stack. *)
Definition iteration (config : DependencyConfig) (action : string)
           (rest : list string) (st : loop_state) : loop_state :=
  if has action (processed st) then
    {| resolved := resolved st; toProcess := rest; processed := processed st |}
  else
    let processed' := add action (processed st) in
    let deps := dependencies config !! action in
    let resolved1 :=
      match deps ≫= Entry.actions with
      | Some acts => fold_left (fun set a => add a set) acts (resolved st)
      | None => add action (resolved st)
      end in
    let toProcess1 :=
      match deps ≫= Entry.dependencies with
      | Some ds => fold_left (push_unprocessed processed') ds rest
      | None => rest
      end in
    match deps ≫= Entry.requires with
    | Some rs =>
        {| resolved := fold_left (fun set dep => add dep set) rs resolved1;
           toProcess := fold_left (push_unprocessed processed') rs toProcess1;
           processed := processed' |}
    | None =>
        {| resolved := resolved1; toProcess := toProcess1; processed := processed' |}
    end.

(** The loop, for at most [fuel] tests of its condition; [None] when they
    do not suffice. *)
Fixpoint loop (config : DependencyConfig) (fuel : nat) (st : loop_state)
  : option (list string) :=
  match fuel with
  | O => None
  | S fuel' =>
      match toProcess st with
      | [] => Some (resolved st)
      | action :: rest => loop config fuel' (iteration config action rest st)
      end
  end.

(** What one entry can push: its [dependencies] and its [requires]. *)
Definition pushes (e : Entry.t) : nat :=
  length (default [] (Entry.dependencies e)) + length (default [] (Entry.requires e)).

(** The pushes still to come: those of the entries not yet processed. *)
Definition pending (config : DependencyConfig) (processed : list string) : nat :=
  sum_list (map (fun ke => if has (fst ke) processed then 0 else pushes (snd ke))
                (map_to_list (dependencies config))).

Definition initial (actions : list string) : loop_state :=
  {| resolved := []; toProcess := rev actions; processed := [] |}.

(** [resolveDependencies(actions, dependencyConfig)].  The loop is given one
    test per element that is ever on the stack, and one more;
    [resolveDependencies_returns] shows that they always suffice. *)
Definition resolveDependencies (actions : list string)
           (dependencyConfig : option DependencyConfig) : option (list string) :=
  match dependencyConfig with
  | None => Some actions
  | Some config =>
      loop config (S (length actions + pending config [])) (initial actions)
  end.

(** The table as a graph.  An entry's edges are its [dependencies] and its
    [requires]; [reach config actions] is what the edges reach from the
    requested actions; an action yields its own expansion, and what it
    [requires]. *)
Definition edges (e : Entry.t) : list string :=
  default [] (Entry.dependencies e) ++ default [] (Entry.requires e).

Definition expansion (config : DependencyConfig) (action : string) : list string :=
  match dependencies config !! action ≫= Entry.actions with
  | Some acts => acts
  | None => [action]
  end.

Definition required (config : DependencyConfig) (action : string) : list string :=
  default [] (dependencies config !! action ≫= Entry.requires).

Definition yields (config : DependencyConfig) (action x : string) : Prop :=
  x ∈ expansion config action \/ x ∈ required config action.

Inductive reach (config : DependencyConfig) (actions : list string) : string -> Prop :=
| reach_requested a : a ∈ actions -> reach config actions a
| reach_edge a e b :
    reach config actions a -> dependencies config !! a = Some e -> b ∈ edges e ->
    reach config actions b.

Definition out_edges (config : DependencyConfig) (action : string) : list string :=
  match dependencies config !! action with
  | Some e => edges e
  | None => []
  end.

(** What holds of the three collections at every test of the loop
    condition. *)
Definition invariant (config : DependencyConfig) (actions : list string)
           (st : loop_state) : Prop :=
  (forall a, a ∈ actions -> a ∈ processed st \/ a ∈ toProcess st) /\
  (forall a b, a ∈ processed st -> b ∈ out_edges config a ->
               b ∈ processed st \/ b ∈ toProcess st) /\
  (forall a x, a ∈ processed st -> yields config a x -> x ∈ resolved st) /\
  (forall a, a ∈ processed st \/ a ∈ toProcess st -> reach config actions a) /\
  (forall x, x ∈ resolved st -> exists a, a ∈ processed st /\ yields config a x) /\
  NoDup (resolved st).

(** Every entry that declares [actions] declares its own key and nothing
    else, as the built-in tables do. *)
Definition declaresItself (k : string) (e : Entry.t) : Prop :=
  match Entry.actions e with
  | Some acts => acts <> [] /\ Forall (eq k) acts
  | None => True
  end.

Definition selfExpanding (config : DependencyConfig) : Prop :=
  map_Forall declaresItself (dependencies config).

#[global] Instance declaresItself_dec k e : Decision (declaresItself k e).
Proof. unfold declaresItself. destruct (Entry.actions e); apply _. Defined.

(** An entry with [actions] and [dependencies], as the built-in tables
    write them. *)
Definition entry (acts deps : list string) : Entry.t :=
  {| Entry.actions := Some acts; Entry.dependencies := Some deps;
     Entry.requires := None; Entry.soft_requires := None;
     Entry.description := None |}.

(** The built-in tables of [staticDependencies]. *)
Definition s3Dependencies : DependencyConfig :=
  {| service := "s3";
     dependencies := list_to_map [
       ("s3:ListBucket", entry ["s3:ListBucket"] []);
       ("s3:GetBucketLocation", entry ["s3:GetBucketLocation"] []);
       ("s3:GetObject", entry ["s3:GetObject"] ["s3:ListBucket"; "s3:GetBucketLocation"]);
       ("s3:PutObject", entry ["s3:PutObject"] ["s3:ListBucket"]);
       ("s3:DeleteObject", entry ["s3:DeleteObject"] ["s3:ListBucket"])
     ] |}.

Definition ec2Dependencies : DependencyConfig :=
  {| service := "ec2";
     dependencies := list_to_map [
       ("ec2:DescribeInstances", entry ["ec2:DescribeInstances"] []);
       ("ec2:TerminateInstances", entry ["ec2:TerminateInstances"] ["ec2:DescribeInstances"]);
       ("ec2:StopInstances", entry ["ec2:StopInstances"] ["ec2:DescribeInstances"]);
       ("ec2:StartInstances", entry ["ec2:StartInstances"] ["ec2:DescribeInstances"])
     ] |}.

Definition lambdaDependencies : DependencyConfig :=
  {| service := "lambda";
     dependencies := list_to_map [
       ("lambda:GetFunction", entry ["lambda:GetFunction"] []);
       ("lambda:InvokeFunction", entry ["lambda:InvokeFunction"] ["lambda:GetFunction"]);
       ("lambda:UpdateFunctionCode", entry ["lambda:UpdateFunctionCode"] ["lambda:GetFunction"]);
       ("lambda:DeleteFunction", entry ["lambda:DeleteFunction"] ["lambda:GetFunction"])
     ] |}.

Definition dynamodbDependencies : DependencyConfig :=
  {| service := "dynamodb";
     dependencies := list_to_map [
       ("dynamodb:DescribeTable", entry ["dynamodb:DescribeTable"] []);
       ("dynamodb:GetItem", entry ["dynamodb:GetItem"] ["dynamodb:DescribeTable"]);
       ("dynamodb:PutItem", entry ["dynamodb:PutItem"] ["dynamodb:DescribeTable"]);
       ("dynamodb:Query", entry ["dynamodb:Query"] ["dynamodb:DescribeTable"]);
       ("dynamodb:Scan", entry ["dynamodb:Scan"] ["dynamodb:DescribeTable"])
     ] |}.

(** A built-in table with hints added to every entry. *)
Definition hinted (config : DependencyConfig) : DependencyConfig :=
  {| service := "hints";
     dependencies :=
       (fun e => {| Entry.actions := Entry.actions e;
                    Entry.dependencies := Entry.dependencies e;
                    Entry.requires := Entry.requires e;
                    Entry.soft_requires := Some ["s3:GetObjectVersion"];
                    Entry.description := Some "hint" |}) <$> dependencies config |}.

Definition staticDependencies : list DependencyConfig :=
  [s3Dependencies; ec2Dependencies; lambdaDependencies; dynamodbDependencies].

(** Tables for the properties below: a cycle of two entries that expand to
    other actions, a chain of two such entries, and the cycle of the
    specification, in which [A] requires [B] and [B] requires [A]. *)
Definition cycleOfAliases : DependencyConfig :=
  {| service := "svc";
     dependencies := list_to_map [("A", entry ["X"] ["B"]); ("B", entry ["Y"] ["A"])] |}.

Definition chainOfAliases : DependencyConfig :=
  {| service := "svc";
     dependencies := list_to_map [("X", entry ["Y"] []); ("Y", entry ["Z"] [])] |}.

Definition needs (rs : list string) : Entry.t :=
  {| Entry.actions := None; Entry.dependencies := None;
     Entry.requires := Some rs; Entry.soft_requires := None;
     Entry.description := None |}.

Definition cycleOfRequires : DependencyConfig :=
  {| service := "svc";
     dependencies := list_to_map [("A", needs ["B"]); ("B", needs ["A"])] |}.

End Dependencies.

(** ** [Map<string, V>]: entries in insertion order *)

Module JSMap.
Section Ops.
Context {V : Type}.

Definition t := list (string * V).

Fixpoint get (k : string) (m : t) : option V :=
  match m with
  | [] => None
  | (k', v) :: m' => if String.eqb k' k then Some v else get k m'
  end.

Definition has (k : string) (m : t) : bool :=
  match get k m with Some _ => true | None => false end.

(** A present key keeps its place; a new one goes last. *)
Fixpoint set (k : string) (v : V) (m : t) : t :=
  match m with
  | [] => [(k, v)]
  | (k', v') :: m' =>
      if String.eqb k' k then (k, v) :: m' else (k', v') :: set k v m'
  end.

Definition delete (k : string) (m : t) : t :=
  List.filter (fun kv => negb (String.eqb (fst kv) k)) m.

Definition keys (m : t) : list string := map fst m.
Definition values (m : t) : list V := map snd m.
End Ops.
Arguments t : clear implicits.
End JSMap.

(** ** [src/types/index.ts] *)

Module Types.

Inductive category := read | write | admin.

Module AWSAction.
Record t := {
  id : string;
  name : string;
  description : option string;
  category : Types.category;
  dependencies : option (list string);
  requiresARN : option bool;
}.
End AWSAction.

Module AWSResource.
Record t := {
  id : string;
  name : string;
  service : string;
  icon : option string;
  description : option string;
  arnPattern : option string;
  actions : list AWSAction.t;
}.
End AWSResource.

Module Selection.
Record t := {
  resourceId : string;
  actions : list string;
  arn : option string;
}.
End Selection.

Module ARNItem.
Record t := {
  arn : string;
  service : string;
  resourceType : option string;
  displayName : option string;
  description : option string;
  tags : option (list (string * string));
}.
End ARNItem.

(** [string | string[]] *)
Inductive oneOrMany := One (s : string) | Many (l : list string).

Inductive effect := Allow | Deny.

Module PolicyStatement.
Record t := {
  Effect : effect;
  Action : oneOrMany;
  Resource : oneOrMany;
  Condition : option (list (string * string));
}.
End PolicyStatement.

#[global] Instance oneOrMany_eq_dec : EqDecision oneOrMany.
Proof. solve_decision. Defined.
#[global] Instance effect_eq_dec : EqDecision effect.
Proof. solve_decision. Defined.
#[global] Instance PolicyStatement_eq_dec : EqDecision PolicyStatement.t.
Proof. solve_decision. Defined.

Record IAMPolicy := {
  Version : string;
  Statement : list PolicyStatement.t;
}.

Record ValidationResult := {
  valid : bool;
  message : option string;
  suggestions : option (list string);
}.

End Types.

(** ** [src/core/PolicyCore.ts] *)

Module PolicyCore.
Import JS RegExp Types.

(** The fields of the class. *)
Record state := {
  resources : JSMap.t AWSResource.t;
  selections : JSMap.t Selection.t;
  arnList : list ARNItem.t;
  dependencies : JSMap.t (list string);
  dependencyResolver : option (list string -> list string);
}.

Definition reset (st : state) : state :=
  {| resources := []; selections := []; arnList := [];
     dependencies := dependencies st; dependencyResolver := dependencyResolver st |}.

(** [new PolicyCore()]: the field initialisers, then [reset]. *)
Definition new : state :=
  reset {| resources := []; selections := []; arnList := [];
           dependencies := []; dependencyResolver := None |}.

Definition addResource (st : state) (resource : AWSResource.t) : state :=
  let id := AWSResource.id resource in
  {| resources := JSMap.set id resource (resources st);
     selections :=
       if JSMap.has id (selections st) then selections st
       else JSMap.set id {| Selection.resourceId := id; Selection.actions := [];
                            Selection.arn := None |} (selections st);
     arnList := arnList st; dependencies := dependencies st;
     dependencyResolver := dependencyResolver st |}.

Definition removeResource (st : state) (resourceId : string) : state :=
  {| resources := JSMap.delete resourceId (resources st);
     selections := JSMap.delete resourceId (selections st);
     arnList := arnList st; dependencies := dependencies st;
     dependencyResolver := dependencyResolver st |}.

Definition with_selections (st : state) (sels : JSMap.t Selection.t) : state :=
  {| resources := resources st; selections := sels; arnList := arnList st;
     dependencies := dependencies st; dependencyResolver := dependencyResolver st |}.

(** The selection is an object held by the map: assigning to its field
    changes the entry in place. *)
Definition setActions (st : state) (resourceId : string) (actions : list string)
  : state :=
  match JSMap.get resourceId (selections st) with
  | Some selection =>
      with_selections st
        (JSMap.set resourceId
           {| Selection.resourceId := Selection.resourceId selection;
              Selection.actions := newSet actions;
              Selection.arn := Selection.arn selection |} (selections st))
  | None => st
  end.

Definition setARN (st : state) (resourceId : string) (arn : string) : state :=
  match JSMap.get resourceId (selections st) with
  | Some selection =>
      with_selections st
        (JSMap.set resourceId
           {| Selection.resourceId := Selection.resourceId selection;
              Selection.actions := Selection.actions selection;
              Selection.arn := Some arn |} (selections st))
  | None => st
  end.

Definition setARNList (st : state) (arns : list ARNItem.t) : state :=
  {| resources := resources st; selections := selections st; arnList := arns;
     dependencies := dependencies st; dependencyResolver := dependencyResolver st |}.

Definition getFilteredARNs (st : state) (service : string)
           (resourceType : option string) : list ARNItem.t :=
  List.filter
    (fun item =>
       let serviceMatch := String.eqb (ARNItem.service item) service in
       match resourceType with
       | None => serviceMatch
       | Some rt =>
           if String.eqb rt EmptyString then serviceMatch
           else serviceMatch &&
                bool_decide (ARNItem.resourceType item = Some rt)
       end)
    (arnList st).

Definition setDependencyResolver (st : state)
           (resolver : list string -> list string) : state :=
  {| resources := resources st; selections := selections st; arnList := arnList st;
     dependencies := dependencies st; dependencyResolver := Some resolver |}.

Definition resolveDependencies (st : state) (actions : list string) : list string :=
  match dependencyResolver st with
  | Some resolver => resolver actions
  | None =>
      fold_left
        (fun resolved action =>
           match JSMap.get action (dependencies st) with
           | Some deps => fold_left (fun set dep => add dep set) deps resolved
           | None => resolved
           end)
        actions (newSet actions)
  end.

(** [/^arn:aws:[a-z0-9-]+:[a-z0-9-]*:[0-9]*:.*$/] *)
Definition lowerDigitDash : atom := Class [("a", "z"); ("0", "9"); ("-", "-")]%char.
Definition digit : atom := Class [("0", "9")]%char.

Definition arnPattern : regex :=
  lit "arn:aws:" ++ plus lowerDigitDash ++ lit ":" ++ star lowerDigitDash
    ++ lit ":" ++ star digit ++ lit ":" ++ star Dot.

(** The characters of the fields, by their codes: [a] to [z] are 97 to 122,
    [0] to [9] are 48 to 57, the dash is 45, line feed and carriage return
    are 10 and 13. *)
Definition lowerLetter (c : ascii) : bool :=
  ((97 <=? N_of_ascii c) && (N_of_ascii c <=? 122))%N.

Definition decimalDigit (c : ascii) : bool :=
  ((48 <=? N_of_ascii c) && (N_of_ascii c <=? 57))%N.

Definition dash (c : ascii) : bool := (N_of_ascii c =? 45)%N.

Definition lineBreak (c : ascii) : bool :=
  ((N_of_ascii c =? 10) || (N_of_ascii c =? 13))%N.

Definition every (p : ascii -> bool) (w : string) : bool :=
  forallb p (list_ascii_of_string w).

(** The shape [validateARN] asks for, in plain terms: the tags [arn] and
    [aws], then a service of lower-case letters, digits and dashes, a region
    of the same characters, an account of digits, and a trailing field, five
    colons between them; the service is not empty, region and account may be,
    and the trailing field has no line break. *)
Definition arnShape (arn : string) : Prop :=
  exists service region account rest,
    arn = "arn:aws:" +:+ service +:+ ":" +:+ region +:+ ":" +:+ account +:+ ":" +:+ rest /\
    service <> EmptyString /\
    every (fun c => lowerLetter c || decimalDigit c || dash c) service = true /\
    every (fun c => lowerLetter c || decimalDigit c || dash c) region = true /\
    every decimalDigit account = true /\
    every (fun c => negb (lineBreak c)) rest = true.

(** The shape as the specification words it, "the 5-colon-plus-trailing-field
    shape with a literal domain tag": the tag [arn], the literal tag [aws],
    three more fields and a trailing one, five colons between them; nothing
    is said of the characters of the fields. *)
Definition statedShape (arn : string) : bool :=
  match split ":" arn with
  | tag :: domain :: _ :: _ :: _ :: _ :: _ =>
      String.eqb tag "arn" && String.eqb domain "aws"
  | _ => false
  end.

(** [arn.split(':')[2]], and its text inside a template. *)
Definition show (field : option string) : string := default "undefined" field.

Definition validateARN (service arn : string) : ValidationResult :=
  if String.eqb arn EmptyString then
    {| valid := false; message := Some "ARN is required"; suggestions := None |}
  else if negb (test arnPattern arn) then
    {| valid := false; message := Some "Invalid ARN format";
       suggestions := Some ["arn:aws:" +:+ service +:+ ":region:account-id:resource"] |}
  else
    let arnService := split ":" arn !! 2 in
    if negb (bool_decide (arnService = Some service)) then
      {| valid := false;
         message := Some ("ARN service mismatch. Expected " +:+ service +:+ ", got "
                            +:+ show arnService);
         suggestions := None |}
    else {| valid := true; message := None; suggestions := None |}.

Definition toArray (x : oneOrMany) : list string :=
  match x with One s => [s] | Many l => l end.

Definition with_Action (s : PolicyStatement.t) (a : oneOrMany) : PolicyStatement.t :=
  {| PolicyStatement.Effect := PolicyStatement.Effect s;
     PolicyStatement.Action := a;
     PolicyStatement.Resource := PolicyStatement.Resource s;
     PolicyStatement.Condition := PolicyStatement.Condition s |}.

(** The key of a statement in the second pass. *)
Definition keyOf (resource : oneOrMany) : string :=
  match resource with
  | Many l => join "," l
  | One r => r
  end.

Definition resourceOf (s : PolicyStatement.t) : string :=
  keyOf (PolicyStatement.Resource s).

Definition optimize_step (resourceGroups : JSMap.t PolicyStatement.t)
           (statement : PolicyStatement.t) : JSMap.t PolicyStatement.t :=
  let resource := resourceOf statement in
  match JSMap.get resource resourceGroups with
  | Some existing =>
      let existingActions := toArray (PolicyStatement.Action existing) in
      let newActions := toArray (PolicyStatement.Action statement) in
      JSMap.set resource
        (with_Action existing (Many (newSet (existingActions ++ newActions))))
        resourceGroups
  | None => JSMap.set resource statement resourceGroups
  end.

Definition optimizeStatements (statements : list PolicyStatement.t)
  : list PolicyStatement.t :=
  JSMap.values (fold_left optimize_step statements []).

Definition qualify (service action : string) : string :=
  if includes ":" action then action else service +:+ ":" +:+ action.

(** One call of the [forEach] callback.  [statementMap] and [statements] hold
    the same objects in the same order: a statement enters both together and
    is changed through the map.  One map stands for both. *)
Definition generate_step (st : state) (statementMap : JSMap.t PolicyStatement.t)
           (selection : Selection.t) : JSMap.t PolicyStatement.t :=
  match Selection.actions selection with
  | [] => statementMap
  | _ =>
      match JSMap.get (Selection.resourceId selection) (resources st) with
      | None => statementMap
      | Some resource =>
          let resolvedActions := sort (resolveDependencies st (Selection.actions selection)) in
          let resourceArn := orElse (Selection.arn selection) "*" in
          let key := resourceArn +:+ ":" +:+ join "," resolvedActions in
          match JSMap.get key statementMap with
          | Some existing =>
              match PolicyStatement.Action existing with
              | Many l =>
                  JSMap.set key
                    (with_Action existing (Many (newSet (l ++ resolvedActions))))
                    statementMap
              | One _ => statementMap
              end
          | None =>
              JSMap.set key
                {| PolicyStatement.Effect := Allow;
                   PolicyStatement.Action :=
                     Many (map (qualify (AWSResource.service resource)) resolvedActions);
                   PolicyStatement.Resource := One resourceArn;
                   PolicyStatement.Condition := None |}
                statementMap
          end
      end
  end.

(** The statements of the first pass. *)
Definition statements (st : state) : list PolicyStatement.t :=
  JSMap.values (fold_left (generate_step st) (JSMap.values (selections st)) []).

Definition generatePolicy (st : state) : IAMPolicy :=
  {| Version := "2012-10-17"; Statement := optimizeStatements (statements st) |}.

(** [getState()]: the values of the two maps in insertion order, and the
    identifier catalogue. *)
Module Snapshot.
Record t := {
  resources : list AWSResource.t;
  selections : list Selection.t;
  arnList : list ARNItem.t;
}.
End Snapshot.

Definition getState (st : state) : Snapshot.t :=
  {| Snapshot.resources := JSMap.values (resources st);
     Snapshot.selections := JSMap.values (selections st);
     Snapshot.arnList := arnList st |}.

(** [generatePolicy] sorts, in place, the array the resolver returns.  When
    the resolver returns its argument, as the resolver of
    [src/utils/dependencies.ts] does without a table, that array is the
    selection's own: the call leaves the actions of such selections
    sorted. *)
Definition sortInPlace (aliased : string -> bool) (st : state) : state :=
  with_selections st
    (map (fun kv : string * Selection.t =>
            if aliased (fst kv)
            then (fst kv,
                  {| Selection.resourceId := Selection.resourceId (snd kv);
                     Selection.actions := sort (Selection.actions (snd kv));
                     Selection.arn := Selection.arn (snd kv) |})
            else kv)
         (selections st)).

(** A registered resolver is handed [selection.actions] itself, not a copy:
    what it writes into that array, then or later, the selection holds.
    [written] gives, for the key of a selection and its actions, the actions
    the resolver leaves there. *)
Definition writeInPlace (written : string -> list string -> list string)
           (st : state) : state :=
  with_selections st
    (map (fun kv : string * Selection.t =>
            (fst kv,
             {| Selection.resourceId := Selection.resourceId (snd kv);
                Selection.actions := written (fst kv) (Selection.actions (snd kv));
                Selection.arn := Selection.arn (snd kv) |}))
         (selections st)).

(** The states of an engine: what the methods make of a new one.
    [generatePolicy] changes the engine in two ways, both through the arrays
    of the selections: its own [sort()], and what a registered resolver does
    to its argument. *)
Inductive reachable : state -> Prop :=
| reachable_new : reachable new
| reachable_addResource st resource :
    reachable st -> reachable (addResource st resource)
| reachable_removeResource st resourceId :
    reachable st -> reachable (removeResource st resourceId)
| reachable_setActions st resourceId actions :
    reachable st -> reachable (setActions st resourceId actions)
| reachable_setARN st resourceId arn :
    reachable st -> reachable (setARN st resourceId arn)
| reachable_setARNList st arns :
    reachable st -> reachable (setARNList st arns)
| reachable_setDependencyResolver st resolver :
    reachable st -> reachable (setDependencyResolver st resolver)
| reachable_generatePolicy st aliased :
    reachable st -> reachable (sortInPlace aliased st)
| reachable_generatePolicy_resolver st written :
    reachable st -> dependencyResolver st <> None ->
    reachable (writeInPlace written st)
| reachable_reset st :
    reachable st -> reachable (reset st).

(** What the second pass keeps true of its map [groups], [seen] being the
    statements it has gone through: one entry per resource, holding the
    actions of the statements seen for that resource, and no other. *)
Definition actionsOf (s : PolicyStatement.t) : list string :=
  toArray (PolicyStatement.Action s).

Definition merged (groups : JSMap.t PolicyStatement.t)
           (seen : list PolicyStatement.t) : Prop :=
  NoDup (JSMap.keys groups) /\
  (forall k o, JSMap.get k groups = Some o ->
               resourceOf o = k /\
               exists s, s ∈ seen /\
                         PolicyStatement.Resource o = PolicyStatement.Resource s) /\
  (forall s, s ∈ seen ->
             exists o, JSMap.get (resourceOf s) groups = Some o /\
                       forall a, a ∈ actionsOf s -> a ∈ actionsOf o) /\
  (forall k o a, JSMap.get k groups = Some o -> a ∈ actionsOf o ->
                 exists s, s ∈ seen /\ resourceOf s = k /\ a ∈ actionsOf s).

(** What the methods keep true of an engine: the two maps have the same keys
    in the same order, every key once; a resource and a selection are filed
    under their own id; the actions of a selection are a set as long as no
    resolver is registered; and the table of the engine itself is empty. *)
Definition wellFormed (st : state) : Prop :=
  JSMap.keys (resources st) = JSMap.keys (selections st) /\
  NoDup (JSMap.keys (selections st)) /\
  (forall k r, (k, r) ∈ resources st -> AWSResource.id r = k) /\
  (forall k s, (k, s) ∈ selections st ->
               Selection.resourceId s = k /\
               (dependencyResolver st = None -> NoDup (Selection.actions s))) /\
  dependencies st = [].

(** [selection.actions.length !== 0] *)
Definition hasActions (selection : Selection.t) : bool :=
  match Selection.actions selection with [] => false | _ => true end.

(** What the first pass writes into a statement: an allowance without
    condition, of a list of actions, on the identifier of a selection that
    has actions, or on [*] when that selection has none. *)
Definition fromSelection (st : state) (s : PolicyStatement.t) : Prop :=
  PolicyStatement.Effect s = Allow /\
  PolicyStatement.Condition s = None /\
  (exists l, PolicyStatement.Action s = Many l) /\
  exists sel, sel ∈ JSMap.values (selections st) /\
              Selection.actions sel <> [] /\
              PolicyStatement.Resource s = One (orElse (Selection.arn sel) "*").

(** Every catalogued resource has a selection. *)
Definition consistent (st : state) : Prop :=
  forall id, id ∈ JSMap.keys (resources st) -> id ∈ JSMap.keys (selections st).

Definition sampleResource (id service : string) : AWSResource.t :=
  {| AWSResource.id := id; AWSResource.name := id; AWSResource.service := service;
     AWSResource.icon := None; AWSResource.description := None;
     AWSResource.arnPattern := None; AWSResource.actions := [] |}.

(** Two resources, and an engine in which both are selected with the same
    identifier and different actions. *)
Definition twoSelections : state :=
  let st1 := addResource (addResource new (sampleResource "s3-test" "s3"))
               (sampleResource "ec2-test" "ec2") in
  let st2 := setARN (setActions st1 "s3-test" ["s3:GetObject"]) "s3-test" "arn:aws:x" in
  setARN (setActions st2 "ec2-test" ["ec2:DescribeInstances"]) "ec2-test" "arn:aws:x".

(** [selection.arn || '*'], the identifier a selection's actions are for. *)
Definition resourceArn (selection : Selection.t) : string :=
  orElse (Selection.arn selection) "*".

(** Four resources of the service [s3].  The second, the third and the fourth
    are selected with one identifier.  The key of the second in the first
    pass, [arn:aws:s3:::b:s3:GetObject], is also the key of the first, whose
    identifier is another. *)
Definition collidingSelections : state :=
  let add st id := addResource st (sampleResource id "s3") in
  let select st id arn actions := setActions (setARN st id arn) id actions in
  let st := add (add (add (add new "r1") "r2") "r3") "r4" in
  select (select (select (select st "r1" "arn:aws:s3:::b" ["s3:GetObject"])
                    "r2" "arn:aws:s3:::b:s3" ["GetObject"])
            "r3" "arn:aws:s3:::b:s3" ["PutObject"])
    "r4" "arn:aws:s3:::b:s3" ["PutObject"; "DeleteObject"].



End PolicyCore.

(** ** [src/utils/arn.ts]: the catalogue filters and the suggestions *)

Module ArnItems.
Import JS Types.

Definition filterARNsByService (arns : list ARNItem.t) (service : string)
  : list ARNItem.t :=
  List.filter (fun item => String.eqb (ARNItem.service item) service) arns.

Definition filterARNsByResourceType (arns : list ARNItem.t) (resourceType : string)
  : list ARNItem.t :=
  List.filter (fun item => bool_decide (ARNItem.resourceType item = Some resourceType))
    arns.

(** [servicePatterns[service]] reads an object literal: besides its five own
    keys, the names every object inherits answer with a value that is no list
    of patterns, and that value, being truthy, is what the function returns. *)
Definition objectPrototypeKeys : list string :=
  ["constructor"; "hasOwnProperty"; "isPrototypeOf"; "propertyIsEnumerable";
   "toLocaleString"; "toString"; "valueOf"; "__proto__";
   "__defineGetter__"; "__defineSetter__"; "__lookupGetter__"; "__lookupSetter__"].

Inductive suggested :=
| Patterns (patterns : list string)
| Inherited (key : string).

Definition generateARNSuggestions (service : string) (region accountId : option string)
  : suggested :=
  let defaultRegion := orElse region "us-east-1" in
  let defaultAccount := orElse accountId "123456789012" in
  if String.eqb service "s3" then
    Patterns ["arn:aws:s3:::bucket-name/*"; "arn:aws:s3:::bucket-name"; "arn:aws:s3:::*"]
  else if String.eqb service "ec2" then
    Patterns ["arn:aws:ec2:" +:+ defaultRegion +:+ ":" +:+ defaultAccount +:+ ":instance/*";
              "arn:aws:ec2:" +:+ defaultRegion +:+ ":" +:+ defaultAccount +:+ ":volume/*";
              "arn:aws:ec2:" +:+ defaultRegion +:+ ":" +:+ defaultAccount
                +:+ ":security-group/*"]
  else if String.eqb service "lambda" then
    Patterns ["arn:aws:lambda:" +:+ defaultRegion +:+ ":" +:+ defaultAccount +:+ ":function:*";
              "arn:aws:lambda:" +:+ defaultRegion +:+ ":" +:+ defaultAccount
                +:+ ":function:function-name"]
  else if String.eqb service "iam" then
    Patterns ["arn:aws:iam::" +:+ defaultAccount +:+ ":role/*";
              "arn:aws:iam::" +:+ defaultAccount +:+ ":user/*";
              "arn:aws:iam::" +:+ defaultAccount +:+ ":policy/*"]
  else if String.eqb service "dynamodb" then
    Patterns ["arn:aws:dynamodb:" +:+ defaultRegion +:+ ":" +:+ defaultAccount +:+ ":table/*";
              "arn:aws:dynamodb:" +:+ defaultRegion +:+ ":" +:+ defaultAccount
                +:+ ":table/table-name"]
  else if bool_decide (service ∈ objectPrototypeKeys) then Inherited service
  else
    Patterns ["arn:aws:" +:+ service +:+ ":" +:+ defaultRegion +:+ ":" +:+ defaultAccount
                +:+ ":*"].

End ArnItems.

(** * Properties *)

(** ** Strings *)

Section Strings.
Import JS.

Lemma append_nil_r (s : string) : s +:+ EmptyString = s.
Proof. induction s as [|c s IH]; simpl; [reflexivity | by rewrite IH]. Qed.

Lemma append_assoc (a b c : string) : (a +:+ b) +:+ c = a +:+ (b +:+ c).
Proof. induction a as [|x a IH]; simpl; [reflexivity | by rewrite IH]. Qed.

Lemma split_nonempty sep s : split sep s ≠ [].
Proof.
  destruct s as [|c s]; simpl; [done|].
  destruct (Ascii.eqb c sep); [done|]. by destruct (split sep s).
Qed.

(** A separator cuts the fields of the text before it from those after. *)
Lemma split_append sep a b :
  split sep (a +:+ String sep b) = split sep a ++ split sep b.
Proof.
  induction a as [|c a IH]; simpl.
  - by rewrite Ascii.eqb_refl.
  - rewrite IH. destruct (Ascii.eqb c sep); [done|].
    pose proof (split_nonempty sep a). by destruct (split sep a).
Qed.

Lemma split_free sep s : free_of sep s = true -> split sep s = [s].
Proof.
  unfold free_of. induction s as [|c s IH]; simpl; [done|].
  intros [Hc Hs]%andb_prop. apply negb_true_iff in Hc. rewrite Hc.
  by rewrite (IH Hs).
Qed.

Lemma join_split sep s : join (String sep EmptyString) (split sep s) = s.
Proof.
  unfold join. induction s as [|c s IH]; simpl; [done|].
  destruct (Ascii.eqb_spec c sep) as [->|Hne].
  - pose proof (split_nonempty sep s).
    destruct (split sep s) eqn:E; [done|]. simpl in *. by rewrite IH.
  - pose proof (split_nonempty sep s).
    destruct (split sep s) as [|h t] eqn:E; [done|].
    simpl in *. destruct t; simpl in *; by rewrite <- IH.
Qed.

Lemma list_ascii_of_append a b :
  list_ascii_of_string (a +:+ b) = list_ascii_of_string a ++ list_ascii_of_string b.
Proof. induction a as [|c a IH]; simpl; [done|]. by rewrite IH. Qed.

Lemma free_of_append c a b : free_of c (a +:+ b) = free_of c a && free_of c b.
Proof. unfold free_of. by rewrite list_ascii_of_append, forallb_app. Qed.

Lemma includes_char c s : includes (String c EmptyString) s = negb (free_of c s).
Proof.
  unfold free_of. induction s as [|d s IH]; simpl; [done|].
  rewrite IH. destruct (ascii_dec c d) as [->|Hne].
  - rewrite Ascii.eqb_refl. by destruct s.
  - rewrite (proj2 (Ascii.eqb_neq d c)) by done. done.
Qed.

Lemma split_single c s h : split c s = [h] -> free_of c s = true.
Proof.
  unfold free_of. revert h. induction s as [|d s IH]; intros h; simpl; [done|].
  pose proof (split_nonempty c s) as Hne.
  destruct (Ascii.eqb d c); simpl.
  - intros [= _ E]. done.
  - destruct (split c s) as [|h' t]; [done|]. intros [= _ ->]. by apply (IH h').
Qed.

(** A text with a separator in it splits into a first field and more. *)
Lemma split_head_tail c s :
  includes (String c EmptyString) s = true ->
  hd EmptyString (split c s) +:+ String c EmptyString
    +:+ join (String c EmptyString) (tl (split c s)) = s.
Proof.
  intros Hin. rewrite <- (join_split c s) at 3. unfold join.
  assert (exists h t1 t, split c s = h :: t1 :: t) as (h & t1 & t & ->); [|done].
  rewrite includes_char in Hin. apply negb_true_iff in Hin.
  pose proof (split_nonempty c s) as Hne.
  destruct (split c s) as [|h [|t1 t]] eqn:E; [done| |eauto].
  apply split_single in E. congruence.
Qed.

End Strings.

(** ** The matcher *)

Section Matcher.
Import RegExp.

Lemma all_match_app a w c :
  all_match a w = true -> atom_matches a c = true ->
  all_match a (String c w) = true.
Proof. unfold all_match. simpl. by intros -> ->. Qed.

(** Whatever [greedy] returns, its continuation returned, after a run of
    characters of the atom. *)
Lemma greedy_sound a k s : forall taken r,
  greedy a k taken s = Some r ->
  exists w s', s = w +:+ s' /\ all_match a w = true /\ k (taken +:+ w) s' = Some r.
Proof.
  induction s as [|c s IH]; intros taken r; simpl.
  - intros Hk. exists EmptyString, EmptyString. rewrite (append_nil_r taken). auto.
  - destruct (atom_matches a c) eqn:Hc.
    + destruct (greedy a k (taken +:+ String c EmptyString) s) as [r0|] eqn:Hg.
      * intros [= <-]. destruct (IH _ _ Hg) as (w & s' & -> & Hw & Hk).
        exists (String c w), s'. split; [done|]. split; [by apply all_match_app|].
        by rewrite append_assoc in Hk.
      * intros Hk. exists EmptyString, (String c s). rewrite (append_nil_r taken). auto.
    + intros Hk. exists EmptyString, (String c s). rewrite (append_nil_r taken). auto.
Qed.

Lemma capture_Some g w o caps :
  capture g w o = Some caps ->
  exists caps', o = Some caps' /\ caps = if g then w :: caps' else caps'.
Proof. destruct g, o; simpl; intros; simplify_eq; eauto. Qed.

(** A successful [exec] is a match, with the captures it returns. *)
Lemma exec_sound re : forall s caps, exec re s = Some caps -> matches re s caps.
Proof.
  induction re as [|t re IH]; intros s caps; simpl.
  - destruct s; intros; simplify_eq. constructor.
  - destruct (t_quant t) eqn:Hq.
    + destruct s as [|c s]; [done|]. destruct (atom_matches (t_atom t) c) eqn:Hc; [|done].
      intros (caps' & He & ->)%capture_Some.
      apply (matches_cons t re (String c EmptyString) s caps'); [|by apply IH].
      split; [by apply all_match_app|]. by rewrite Hq.
    + intros (w & s' & -> & Hw & (caps' & He & ->)%capture_Some)%greedy_sound.
      simpl. apply matches_cons; [|by apply IH]. split; [done|]. by rewrite Hq.
    + destruct s as [|c s]; [done|]. destruct (atom_matches (t_atom t) c) eqn:Hc; [|done].
      intros (w & s' & -> & Hw & (caps' & He & ->)%capture_Some)%greedy_sound.
      simpl. apply (matches_cons t re (String c w) s' caps'); [|by apply IH].
      split; [by apply all_match_app|]. by rewrite Hq.
Qed.

(** The groups of a pattern have no part in whether it matches. *)
Lemma greedy_ungroup a k k' s : forall taken,
  (forall w r, is_Some (k w r) <-> is_Some (k' w r)) ->
  is_Some (greedy a k taken s) <-> is_Some (greedy a k' taken s).
Proof.
  induction s as [|c s IH]; intros taken Hk; simpl; [apply Hk|].
  destruct (atom_matches a c); [|apply Hk].
  specialize (IH (taken +:+ String c EmptyString) Hk).
  specialize (Hk taken (String c s)).
  destruct (greedy a k _ s) as [x|], (greedy a k' _ s) as [y|].
  - split; eauto.
  - exfalso. apply (is_Some_None (A:=list string)), IH. eauto.
  - exfalso. apply (is_Some_None (A:=list string)), IH. eauto.
  - exact Hk.
Qed.

Lemma capture_is_Some g w o : is_Some (capture g w o) <-> is_Some o.
Proof. destruct g, o; simpl; rewrite ?is_Some_alt; done. Qed.

Lemma exec_ungroup re : forall s, is_Some (exec (ungroup re) s) <-> is_Some (exec re s).
Proof.
  induction re as [|t re IH]; intros s; simpl; [done|].
  destruct (t_quant t).
  - destruct s as [|c s]; [done|]. destruct (atom_matches (t_atom t) c); [|done].
    by rewrite !capture_is_Some.
  - apply greedy_ungroup. intros. by rewrite !capture_is_Some.
  - destruct s as [|c s]; [done|]. destruct (atom_matches (t_atom t) c); [|done].
    apply greedy_ungroup. intros. by rewrite !capture_is_Some.
Qed.

(** Reading a match of a pattern that starts with literal text or with one
    term. *)
Lemma matches_lit l re s caps :
  matches (lit l ++ re) s caps -> exists s', s = l +:+ s' /\ matches re s' caps.
Proof.
  revert s. induction l as [|c l IH]; intros s; simpl; [eauto|].
  inversion 1 as [|t re' w s0 caps0 [Hw Hlen] Hm]; subst. simpl in *.
  destruct w as [|d [|]]; simplify_eq/=.
  unfold all_match in Hw. simpl in Hw. rewrite andb_true_r in Hw.
  apply Ascii.eqb_eq in Hw as ->.
  destruct (IH _ Hm) as (s' & -> & Hm'). eauto.
Qed.

Lemma matches_term t re s caps :
  matches (t :: re) s caps ->
  exists w s' caps', s = w +:+ s' /\ fits t w /\ matches re s' caps' /\
                     caps = if t_group t then w :: caps' else caps'.
Proof. inversion 1; subst; eauto 10. Qed.

Lemma matches_end s caps : matches [] s caps -> s = EmptyString /\ caps = [].
Proof. by inversion 1. Qed.

(** The other direction, for a repetition that the text itself delimits:
    the longest run is tried first, and it is the one that succeeds. *)
Lemma greedy_longest a k w : forall taken s' r,
  all_match a w = true -> stops a s' -> k (taken +:+ w) s' = Some r ->
  greedy a k taken (w +:+ s') = Some r.
Proof.
  induction w as [|c w IH]; intros taken s' r Hw Hs Hk; simpl.
  - rewrite append_nil_r in Hk. destruct s' as [|d s']; simpl in *; [done|].
    by rewrite Hs.
  - unfold all_match in Hw. simpl in Hw. apply andb_prop in Hw as [Hc Hw].
    rewrite Hc, (IH (taken +:+ String c EmptyString) s' r); [done..|].
    by rewrite append_assoc.
Qed.

Lemma exec_lit l re s : exec (lit l ++ re) (l +:+ s) = exec re s.
Proof.
  induction l as [|c l IH]; simpl; [done|]. by rewrite Ascii.eqb_refl, IH.
Qed.

Lemma exec_star a g re w s' caps :
  all_match a w = true -> stops a s' -> exec re s' = Some caps ->
  exec (Term a Star g :: re) (w +:+ s') = Some (if g then w :: caps else caps).
Proof.
  intros Hw Hs He. simpl. apply greedy_longest; [done..|].
  simpl. rewrite He. by destruct g.
Qed.

Lemma exec_plus a g re w s' caps :
  w <> EmptyString ->
  all_match a w = true -> stops a s' -> exec re s' = Some caps ->
  exec (Term a Plus g :: re) (w +:+ s') = Some (if g then w :: caps else caps).
Proof.
  intros Hne Hw Hs He. destruct w as [|c w]; [done|]. simpl.
  unfold all_match in Hw. simpl in Hw. apply andb_prop in Hw as [Hc Hw].
  rewrite Hc. apply (greedy_longest a _ w (String c EmptyString)); [done..|].
  simpl. rewrite He. by destruct g.
Qed.

End Matcher.

(** Reading a match term by term. *)
Ltac read_lit l H :=
  apply (matches_lit l) in H; destruct H as (? & -> & H).
Ltac read_term H :=
  simpl in H; apply matches_term in H;
  destruct H as (? & ? & ? & -> & [? ?] & H & ->).

(** ** Identifiers *)

Section Identifiers.
Import JS RegExp Arn.

(** The text [parsePattern] accepts and what it captures. *)
Lemma parsePattern_sound x caps :
  exec parsePattern x = Some caps ->
  exists p s r a rest,
    caps = [p; s; r; a; rest] /\
    x = "arn:" +:+ p +:+ ":" +:+ s +:+ ":" +:+ r +:+ ":" +:+ a +:+ ":" +:+ rest /\
    all_match (NotChr ":") p = true /\ all_match (NotChr ":") s = true /\
    all_match (NotChr ":") r = true /\ all_match (NotChr ":") a = true /\
    all_match Dot rest = true /\
    p <> EmptyString /\ s <> EmptyString /\ rest <> EmptyString.
Proof.
  intros H%exec_sound. unfold parsePattern in H.
  read_lit "arn:" H. read_term H. read_lit ":" H. read_term H.
  read_lit ":" H. read_term H. read_lit ":" H. read_term H.
  read_lit ":" H. read_term H.
  apply matches_end in H as [-> ->]. simpl in *.
  eexists _, _, _, _, _. rewrite append_nil_r. repeat split; eauto.
Qed.

Lemma parseARN_exec x : is_Some (parseARN x) <-> is_Some (exec parsePattern x).
Proof.
  unfold parseARN. destruct (exec parsePattern x) as [caps|] eqn:E; [|done].
  apply parsePattern_sound in E as (p & s & r & a & rest & -> & _).
  split; [eauto|]. intros _.
  destruct (String.eqb s "s3"), (includes "/" rest), (includes ":" rest); eauto.
Qed.

Lemma split_colon_free w :
  all_match (NotChr ":") w = true -> split ":" w = [w].
Proof. intros H. by apply split_free. Qed.

Lemma all_match_append a u v :
  all_match a (u +:+ v) = all_match a u && all_match a v.
Proof. unfold all_match. by rewrite list_ascii_of_append, forallb_app. Qed.

(** The other direction: the pattern accepts every text of this form, and
    captures its parts. *)
Lemma parsePattern_complete p s r a rest :
  all_match (NotChr ":") p = true -> all_match (NotChr ":") s = true ->
  all_match (NotChr ":") r = true -> all_match (NotChr ":") a = true ->
  all_match Dot rest = true ->
  p <> EmptyString -> s <> EmptyString -> rest <> EmptyString ->
  exec parsePattern
    ("arn:" +:+ p +:+ ":" +:+ s +:+ ":" +:+ r +:+ ":" +:+ a +:+ ":" +:+ rest)
  = Some [p; s; r; a; rest].
Proof.
  intros Hp Hs Hr Ha Hrest Hpne Hsne Hrne.
  change parsePattern with
    (lit "arn:" ++ Term (NotChr ":") Plus true
       :: lit ":" ++ Term (NotChr ":") Plus true
       :: lit ":" ++ Term (NotChr ":") Star true
       :: lit ":" ++ Term (NotChr ":") Star true
       :: lit ":" ++ [Term Dot Plus true]).
  rewrite exec_lit. erewrite exec_plus; [done|done..|].
  rewrite exec_lit. erewrite exec_plus; [done|done..|].
  rewrite exec_lit. erewrite exec_star; [done|done..|].
  rewrite exec_lit. erewrite exec_star; [done|done..|].
  rewrite exec_lit. rewrite <- (append_nil_r rest) at 1.
  erewrite exec_plus; done.
Qed.

(** The colon-delimited fields of an accepted identifier. *)
Lemma parsePattern_fields x p s r a rest :
  exec parsePattern x = Some [p; s; r; a; rest] ->
  split ":" x = ["arn"; p; s; r; a] ++ split ":" rest.
Proof.
  intros (p' & s' & r' & a' & rest' & [= <- <- <- <- <-] & -> & Hp & Hs & Hr & Ha & _)
    %parsePattern_sound.
  simpl. rewrite !split_append, !split_colon_free by done. reflexivity.
Qed.

End Identifiers.

Section IdentifierClaims.
Import JS RegExp Arn.

(** C6.  [parseARN] returns null for every string with fewer than six
    colon-delimited fields; for the service [s3] the whole resource part,
    that is everything after the fifth colon, becomes the resource and there
    is no resource type, slashes or not; and ["arn:aws:s3:::my-bucket"]
    parses to partition [aws], service [s3], empty region and account,
    resource [my-bucket], no resource type. *)
Theorem parseARN_fields :
  (forall x, length (split ":" x) < 6 -> parseARN x = None) /\
  (forall x parsed,
      parseARN x = Some parsed -> service parsed = "s3" ->
      resourceType parsed = None /\
      resource parsed = join ":" (drop 5 (split ":" x))) /\
  parseARN "arn:aws:s3:::my-bucket" =
    Some {| partition := "aws"; service := "s3"; region := ""; accountId := "";
            resource := "my-bucket"; resourceType := None |} /\
  parseARN "arn:aws:s3:::my-bucket/path/to/object.txt" =
    Some {| partition := "aws"; service := "s3"; region := ""; accountId := "";
            resource := "my-bucket/path/to/object.txt"; resourceType := None |}.
Proof.
  split; [|split; [|split; reflexivity]].
  - intros x Hlen. destruct (parseARN x) as [parsed|] eqn:E; [|done]. exfalso.
    assert (is_Some (exec parsePattern x)) as [caps Hc] by (apply parseARN_exec; eauto).
    destruct (parsePattern_sound _ _ Hc) as (p & s & r & a & rest & -> & _).
    apply parsePattern_fields in Hc. rewrite Hc in Hlen. simpl in Hlen.
    pose proof (split_nonempty ":" rest). destruct (split ":" rest); simpl in *; [done|lia].
  - intros x parsed. unfold parseARN.
    destruct (exec parsePattern x) as [caps|] eqn:Hc; [|done].
    destruct (parsePattern_sound _ _ Hc) as (p & s & r & a & rest & -> & _).
    apply parsePattern_fields in Hc. rewrite Hc. simpl drop.
    rewrite drop_0, (join_split ":" rest).
    destruct (String.eqb_spec s "s3") as [->|Hne].
    + intros [= <-]. done.
    + destruct (includes "/" rest), (includes ":" rest); intros [= <-]; simpl; done.
Qed.

Lemma parseARN_fields_witness :
  parseARN "arn:aws:s3" = None /\
  (resourceType {| partition := "aws"; service := "s3"; region := ""; accountId := "";
                   resource := "b/k:x"; resourceType := None |} = None /\
   "b/k:x" = join ":" (drop 5 (split ":" "arn:aws:s3:::b/k:x"))).
Proof.
  split.
  - apply (proj1 parseARN_fields "arn:aws:s3"). vm_compute. lia.
  - apply (proj1 (proj2 parseARN_fields) "arn:aws:s3:::b/k:x"); reflexivity.
Defined.

(** C10.  [validateARNFormat] accepts exactly the strings [parseARN] parses:
    the check returns true if and only if the parser does not return null. *)
Theorem validateARNFormat_iff_parseARN x :
  validateARNFormat x = true <-> parseARN x <> None.
Proof.
  unfold validateARNFormat, test.
  change formatPattern with (ungroup parsePattern).
  pose proof (exec_ungroup parsePattern x) as Hu.
  pose proof (parseARN_exec x) as Hp.
  rewrite (not_eq_None_Some (parseARN x)).
  destruct (exec (ungroup parsePattern) x) eqn:E.
  - split; [intros _|done]. apply Hp, Hu. eauto.
  - split; [done|]. intros H%Hp%Hu. by destruct H.
Qed.

(** X1.  The round trip through [formatARN] holds wherever the parsed resource
    type is not the empty string: what [parseARN] returned is what it returns
    for the identifier [formatARN] writes from it. *)
Lemma parseARN_formatARN x parsed :
  parseARN x = Some parsed ->
  resourceType parsed <> Some EmptyString ->
  parseARN (formatARN parsed) = Some parsed.
Proof.
  intros Hparse Htype. pose proof Hparse as Hx. revert Hx. unfold parseARN at 1.
  destruct (exec parsePattern x) as [caps|] eqn:Hc; [|done].
  destruct (parsePattern_sound _ _ Hc)
    as (p & s & r & a & rest & -> & -> & Hp & Hs & Hr & Ha & Hrest & Hpne & Hsne & Hrne).
  destruct (String.eqb_spec s "s3") as [->|Hs3].
  { intros [= <-]. exact Hparse. }
  destruct (includes "/" rest) eqn:Hslash.
  { intros [= <-]. simpl in Htype. unfold formatARN.
    cbn [resourceType resource partition service region accountId].
    destruct (String.eqb_spec (hd EmptyString (split "/" rest)) EmptyString) as [E|_];
      [by rewrite E in Htype|].
    rewrite (split_head_tail "/" rest Hslash). exact Hparse. }
  rewrite includes_char in Hslash. apply negb_false_iff in Hslash.
  destruct (includes ":" rest) eqn:Hcolon; [|intros [= <-]; exact Hparse].
  intros [= <-]. simpl in Htype. unfold formatARN.
  cbn [resourceType resource partition service region accountId].
  destruct (String.eqb_spec (hd EmptyString (split ":" rest)) EmptyString) as [E|Hne];
    [by rewrite E in Htype|].
  pose proof (split_head_tail ":" rest Hcolon) as Hrest'.
  set (type := hd EmptyString (split ":" rest)) in *.
  set (res := join ":" (tl (split ":" rest))) in *.
  rewrite <- Hrest' in Hslash, Hrest.
  rewrite !free_of_append in Hslash. rewrite !all_match_append in Hrest.
  apply andb_prop in Hslash as [Htf [_ Hrf]%andb_prop].
  apply andb_prop in Hrest as [Htd [_ Hrd]%andb_prop].
  unfold parseARN. rewrite parsePattern_complete; try done.
  - rewrite (proj2 (String.eqb_neq s "s3")) by done.
    assert (includes "/" (type +:+ "/" +:+ res) = true) as ->.
    { rewrite includes_char, !free_of_append. simpl. by rewrite andb_false_r. }
    change (type +:+ "/" +:+ res) with (type +:+ String "/" res).
    rewrite split_append, !split_free by done. reflexivity.
  - rewrite !all_match_append, Htd, Hrd. reflexivity.
  - by destruct type.
Qed.

Lemma parseARN_formatARN_witness :
  parseARN (formatARN {| partition := "aws"; service := "lambda"; region := "us-west-2";
                         accountId := "123456789012"; resource := "MyFunction";
                         resourceType := Some "function" |})
  = Some {| partition := "aws"; service := "lambda"; region := "us-west-2";
            accountId := "123456789012"; resource := "MyFunction";
            resourceType := Some "function" |}.
Proof.
  apply (parseARN_formatARN "arn:aws:lambda:us-west-2:123456789012:function:MyFunction").
  - reflexivity.
  - discriminate.
Defined.

(** C7.  The round trip through [formatARN] is lost where the parsed
    resource type is the empty string: [formatARN] tests the type for
    truthiness and leaves an empty one out, with its slash.  The resource
    part [/restapis] parses to type [""] and resource [restapis], is
    formatted as [restapis], and parses again to no type at all; the
    resource part [/] is formatted as the empty text, which does not parse. *)
Theorem formatARN_drops_empty_resourceType :
  parseARN "arn:aws:apigateway:us-east-1::/restapis" =
    Some {| partition := "aws"; service := "apigateway"; region := "us-east-1";
            accountId := ""; resource := "restapis"; resourceType := Some "" |} /\
  formatARN <$> parseARN "arn:aws:apigateway:us-east-1::/restapis" =
    Some "arn:aws:apigateway:us-east-1::restapis" /\
  parseARN "arn:aws:apigateway:us-east-1::/restapis" ≫= (fun p => parseARN (formatARN p)) =
    Some {| partition := "aws"; service := "apigateway"; region := "us-east-1";
            accountId := ""; resource := "restapis"; resourceType := None |} /\
  parseARN "arn:aws:apigateway:us-east-1::/restapis" ≫= (fun p => parseARN (formatARN p))
    <> parseARN "arn:aws:apigateway:us-east-1::/restapis" /\
  is_Some (parseARN "arn:aws:ec2:::/") /\
  parseARN "arn:aws:ec2:::/" ≫= (fun p => parseARN (formatARN p)) = None.
Proof. repeat split; try reflexivity; [discriminate | by eexists]. Qed.

(** Where the pattern has no character with a meaning of its own in a regular
    expression, other than the three that are replaced, the call returns, and
    the match is that of the pattern language of the specification. *)
Lemma replaceAll_append c by_ a b :
  replaceAll c by_ (a +:+ b) = replaceAll c by_ a +:+ replaceAll c by_ b.
Proof.
  induction a as [|d a IH]; simpl; [done|].
  destruct (Ascii.eqb d c); simpl; rewrite IH; [|done]. by rewrite append_assoc.
Qed.

Lemma compile_plain c rest done :
  plain c = true ->
  compile_terms
    (replaceAll "$" "\$" (replaceAll "?" "." (replaceAll "*" ".*" (String c EmptyString)))
       +:+ rest) done
  = compile_terms rest (globTerm c :: done).
Proof.
  destruct c as [[] [] [] [] [] [] [] []]; intros H; try discriminate H; reflexivity.
Qed.

Lemma compile_pattern pattern : forall done,
  forallb plain (list_ascii_of_string pattern) = true ->
  compile_terms
    (replaceAll "$" "\$" (replaceAll "?" "." (replaceAll "*" ".*" pattern)) +:+ "$") done
  = Compiled (rev done ++ globRegex pattern).
Proof.
  induction pattern as [|c pattern IH]; intros done; simpl forallb.
  - intros _. simpl. by rewrite app_nil_r.
  - intros [Hc Hp]%andb_prop.
    change (String c pattern) with (String c EmptyString +:+ pattern).
    rewrite !replaceAll_append, append_assoc, (compile_plain c _ _ Hc), (IH _ Hp).
    unfold globRegex. simpl. by rewrite <- app_assoc.
Qed.

Lemma matchARNPattern_plain arn pattern :
  forallb plain (list_ascii_of_string pattern) = true ->
  matchARNPattern arn pattern = Returns (test (globRegex pattern) arn).
Proof.
  intros H. unfold matchARNPattern, RegExp_new. simpl.
  by rewrite (compile_pattern pattern [] H).
Qed.

(** X2.  A pattern without any character that has a meaning in a regular
    expression matches itself. *)
Lemma matchARNPattern_literal x :
  forallb (fun c => negb (isSyntaxCharacter c)) (list_ascii_of_string x) = true ->
  matchARNPattern x x = Returns true.
Proof.
  intros H. rewrite matchARNPattern_plain.
  - f_equal. unfold test.
    assert (globRegex x = lit x ++ []) as ->.
    { rewrite app_nil_r. unfold globRegex. induction x as [|c x IH]; simpl in *; [done|].
      apply andb_prop in H as [Hc Hx]. rewrite (IH Hx). f_equal. unfold globTerm.
      destruct (Ascii.eqb_spec c "*") as [->|_]; [done|].
      by destruct (Ascii.eqb_spec c "?") as [->|_]. }
    rewrite <- (append_nil_r x) at 2. by rewrite exec_lit.
  - rewrite forallb_forall in H. apply forallb_forall. intros c Hc.
    unfold plain. rewrite (H c Hc). by rewrite orb_true_r.
Qed.

(** C2.  Of the characters with a meaning in a regular expression,
    [matchARNPattern] escapes the dollar sign only.  A dot in the pattern
    matches any character; a literal pattern with a plus sign does not match
    itself; a pattern that begins with a plus sign makes the call throw. *)
Theorem matchARNPattern_unescaped :
  matchARNPattern "arn:aws:s3:::bucket/fileXtxt" "arn:aws:s3:::bucket/file.txt"
    = Returns true /\
  matchARNPattern "a+b" "a+b" = Returns false /\
  matchARNPattern "+" "+" = Throws /\
  matchARNPattern "arn:aws:s3:::bucket$special" "arn:aws:s3:::bucket$special"
    = Returns true.
Proof. repeat split; reflexivity. Qed.

End IdentifierClaims.

Section ValidationClaims.
Import JS RegExp Types PolicyCore.

(** What [arnPattern] accepts, field by field. *)
Lemma arnPattern_parts arn :
  test arnPattern arn = true <->
  exists service region account rest,
    arn = "arn:aws:" +:+ service +:+ ":" +:+ region +:+ ":" +:+ account +:+ ":" +:+ rest /\
    service <> EmptyString /\
    all_match lowerDigitDash service = true /\
    all_match lowerDigitDash region = true /\
    all_match digit account = true /\
    all_match Dot rest = true.
Proof.
  unfold test. split.
  - destruct (exec arnPattern arn) as [caps|] eqn:H; [intros _|done].
    apply exec_sound in H. unfold arnPattern in H.
    read_lit "arn:aws:" H. read_term H. read_lit ":" H. read_term H.
    read_lit ":" H. read_term H. read_lit ":" H. read_term H.
    apply matches_end in H as [-> ->]. simpl in *.
    eexists _, _, _, _. rewrite append_nil_r. repeat split; eauto.
  - intros (sv & r & a & rest & -> & Hne & Hsv & Hr & Ha & Hrest).
    change arnPattern with
      (lit "arn:aws:" ++ Term lowerDigitDash Plus false
         :: lit ":" ++ Term lowerDigitDash Star false
         :: lit ":" ++ Term digit Star false :: lit ":" ++ [Term Dot Star false]).
    rewrite exec_lit.
    erewrite exec_plus; [done|done..|].
    rewrite exec_lit. erewrite exec_star; [done|done..|].
    rewrite exec_lit. erewrite exec_star; [done|done..|].
    rewrite exec_lit. rewrite <- (append_nil_r rest).
    erewrite exec_star; done.
Qed.

Lemma all_match_every a p w :
  (forall c, atom_matches a c = p c) -> all_match a w = every p w.
Proof.
  intros H. unfold all_match, every.
  induction (list_ascii_of_string w) as [|c l IH]; simpl; [done|]. by rewrite H, IH.
Qed.

Lemma lowerDigitDash_code c :
  atom_matches lowerDigitDash c = lowerLetter c || decimalDigit c || dash c.
Proof. by destruct c as [[] [] [] [] [] [] [] []]. Qed.

Lemma digit_code c : atom_matches digit c = decimalDigit c.
Proof. by destruct c as [[] [] [] [] [] [] [] []]. Qed.

Lemma Dot_code c : atom_matches Dot c = negb (lineBreak c).
Proof. by destruct c as [[] [] [] [] [] [] [] []]. Qed.

(** [arnPattern] accepts the identifiers of the shape [arnShape], and no
    other. *)
Lemma arnPattern_shape arn : test arnPattern arn = true <-> arnShape arn.
Proof.
  rewrite arnPattern_parts. unfold arnShape.
  split; intros (sv & r & a & rest & H); exists sv, r, a, rest;
    rewrite !(all_match_every _ _ _ lowerDigitDash_code),
      (all_match_every _ _ _ digit_code), (all_match_every _ _ _ Dot_code) in *; done.
Qed.

(** C8, as the code has it.  [validateARN] answers in this order: an empty
    identifier is refused with a message containing "required"; one that does
    not have the shape [arnShape], which asks for the tags [arn] and [aws], a
    non-empty service and a region of lower-case letters, digits and dashes,
    an account of digits and a trailing field without line break, is refused
    with a message containing "Invalid ARN format" and the templated example
    as the suggestion; one whose third colon-delimited field is not the
    expected service is refused with a message containing "service mismatch";
    any other is valid. *)
Theorem validateARN_cases service arn :
  (arn = EmptyString ->
     valid (validateARN service arn) = false /\
     exists msg, message (validateARN service arn) = Some msg /\
                 includes "required" msg = true) /\
  (arn <> EmptyString -> ~ arnShape arn ->
     valid (validateARN service arn) = false /\
     (exists msg, message (validateARN service arn) = Some msg /\
                  includes "Invalid ARN format" msg = true) /\
     suggestions (validateARN service arn) =
       Some ["arn:aws:" +:+ service +:+ ":region:account-id:resource"]) /\
  (arn <> EmptyString -> arnShape arn -> split ":" arn !! 2 <> Some service ->
     valid (validateARN service arn) = false /\
     exists msg, message (validateARN service arn) = Some msg /\
                 includes "service mismatch" msg = true) /\
  (arn <> EmptyString -> arnShape arn -> split ":" arn !! 2 = Some service ->
     validateARN service arn =
       {| valid := true; message := None; suggestions := None |}).
Proof.
  unfold validateARN.
  destruct (String.eqb_spec arn EmptyString) as [->|Hne].
  { repeat split; try done. eexists. split; [done|]. reflexivity. }
  destruct (test arnPattern arn) eqn:Ht; simpl.
  - apply arnPattern_shape in Ht.
    destruct (decide (split ":" arn !! 2 = Some service)) as [He|He].
    + rewrite bool_decide_eq_true_2 by done. simpl. repeat split; done.
    + rewrite bool_decide_eq_false_2 by done. simpl. repeat split; try done.
      eexists. split; [done|]. reflexivity.
  - assert (~ arnShape arn) as Hn.
    { intros H%arnPattern_shape. congruence. }
    repeat split; try done. eexists. split; [done|]. reflexivity.
Qed.

Lemma validateARN_cases_witness :
  (valid (validateARN "s3" "") = false /\
   exists msg, message (validateARN "s3" "") = Some msg /\
               includes "required" msg = true) /\
  (valid (validateARN "s3" "not-an-arn") = false /\
   (exists msg, message (validateARN "s3" "not-an-arn") = Some msg /\
                includes "Invalid ARN format" msg = true) /\
   suggestions (validateARN "s3" "not-an-arn") =
     Some ["arn:aws:s3:region:account-id:resource"]) /\
  (valid (validateARN "s3" "arn:aws:ec2:us-east-1:123456789012:instance/i-123") = false /\
   exists msg,
     message (validateARN "s3" "arn:aws:ec2:us-east-1:123456789012:instance/i-123")
       = Some msg /\
     includes "service mismatch" msg = true) /\
  validateARN "s3" "arn:aws:s3:::my-bucket/*" =
    {| valid := true; message := None; suggestions := None |}.
Proof.
  split; [|split; [|split]].
  - apply (proj1 (validateARN_cases "s3" "")). reflexivity.
  - apply (proj1 (proj2 (validateARN_cases "s3" "not-an-arn"))).
    + discriminate.
    + intros H%arnPattern_shape. discriminate.
  - apply (proj1 (proj2 (proj2 (validateARN_cases "s3" _)))).
    + discriminate.
    + apply arnPattern_shape. reflexivity.
    + discriminate.
  - apply (proj2 (proj2 (proj2 (validateARN_cases "s3" _)))).
    + discriminate.
    + apply arnPattern_shape. reflexivity.
    + reflexivity.
Defined.

(** C8 as stated fails where a field has a character its class excludes.  The
    identifier of a managed policy is not empty, has the five colons, the tags
    [arn] and [aws] and a trailing field, and its third field is the expected
    service: it is refused for its format, its account field being [aws]. *)
Lemma validateARN_stated_shape_refused :
  "arn:aws:iam::aws:policy/ReadOnlyAccess" <> EmptyString /\
  statedShape "arn:aws:iam::aws:policy/ReadOnlyAccess" = true /\
  split ":" "arn:aws:iam::aws:policy/ReadOnlyAccess" !! 2 = Some "iam" /\
  validateARN "iam" "arn:aws:iam::aws:policy/ReadOnlyAccess" =
    {| valid := false; message := Some "Invalid ARN format";
       suggestions := Some ["arn:aws:iam:region:account-id:resource"] |} /\
  ~ (forall service arn,
        arn <> EmptyString -> statedShape arn = true ->
        split ":" arn !! 2 = Some service ->
        valid (validateARN service arn) = true).
Proof.
  split; [done|]. split; [done|]. split; [done|]. split; [done|].
  intros H.
  specialize (H "iam" "arn:aws:iam::aws:policy/ReadOnlyAccess"
                ltac:(done) eq_refl eq_refl).
  discriminate H.
Qed.

End ValidationClaims.

(** ** Sets in insertion order *)

Section Sets.
Import JS.

Lemma has_true x l : has x l = true <-> x ∈ l.
Proof. unfold has. apply bool_decide_eq_true. Qed.

Lemma has_false x l : has x l = false <-> x ∉ l.
Proof. unfold has. apply bool_decide_eq_false. Qed.

Lemma elem_of_add y x l : y ∈ add x l <-> y = x \/ y ∈ l.
Proof.
  unfold add. destruct (has x l) eqn:E.
  - apply has_true in E. naive_solver.
  - rewrite elem_of_app, list_elem_of_singleton. naive_solver.
Qed.

Lemma NoDup_add x l : NoDup l -> NoDup (add x l).
Proof.
  unfold add. destruct (has x l) eqn:E; [done|]. apply has_false in E.
  intros Hl. apply NoDup_app. split; [done|]. split; [|apply NoDup_singleton].
  intros y Hy ->%list_elem_of_singleton. done.
Qed.

Lemma elem_of_add_all y xs : forall l,
  y ∈ fold_left (fun set x => add x set) xs l <-> y ∈ l \/ y ∈ xs.
Proof.
  induction xs as [|x xs IH]; intros l; simpl.
  - rewrite elem_of_nil. naive_solver.
  - rewrite IH, elem_of_add, elem_of_cons. naive_solver.
Qed.

Lemma NoDup_add_all xs : forall l,
  NoDup l -> NoDup (fold_left (fun set x => add x set) xs l).
Proof. induction xs as [|x xs IH]; intros l Hl; simpl; [done|]. by apply IH, NoDup_add. Qed.

Lemma add_all_sublist xs : forall l,
  fold_left (fun set x => add x set) xs l `sublist_of` l ++ xs.
Proof.
  induction xs as [|x xs IH]; intros l; simpl.
  - by rewrite app_nil_r.
  - etrans; [apply IH|]. rewrite (cons_middle x l xs), app_assoc.
    apply sublist_app; [|done]. unfold add. destruct (has x l); [|done].
    by apply sublist_inserts_r.
Qed.

Lemma add_all_fresh xs : forall l,
  NoDup (l ++ xs) -> fold_left (fun set x => add x set) xs l = l ++ xs.
Proof.
  induction xs as [|x xs IH]; intros l Hl; simpl.
  - by rewrite app_nil_r.
  - assert (has x l = false) as Hx.
    { apply has_false. apply NoDup_app in Hl as (_ & Hl & _).
      intros Hin. apply (Hl x Hin). left. }
    unfold add at 2. rewrite Hx, IH; rewrite <- app_assoc; done.
Qed.

(** [new Set(xs)] keeps the first occurrence of every element of [xs]. *)
Lemma elem_of_newSet y xs : y ∈ newSet xs <-> y ∈ xs.
Proof. unfold newSet. rewrite elem_of_add_all, elem_of_nil. naive_solver. Qed.

Lemma NoDup_newSet xs : NoDup (newSet xs).
Proof. apply NoDup_add_all, NoDup_nil_2. Qed.

Lemma newSet_sublist xs : newSet xs `sublist_of` xs.
Proof. apply (add_all_sublist xs []). Qed.

Lemma newSet_NoDup_id xs : NoDup xs -> newSet xs = xs.
Proof. intros H. by apply (add_all_fresh xs []). Qed.

End Sets.

(** ** The resolver's loop *)

Section Resolver.
Import JS Dependencies.

Variable config : DependencyConfig.

(** *** It ends *)

Lemma length_push P ds : forall stack,
  length (fold_left (push_unprocessed P) ds stack) <= length stack + length ds.
Proof.
  induction ds as [|d ds IH]; intros stack; simpl; [lia|].
  etrans; [apply IH|]. unfold push_unprocessed. destruct (has d P); simpl; lia.
Qed.

Lemma sum_list_drop {A} (f g : A -> nat) (l : list A) x c :
  (forall y, f y <= g y) -> x ∈ l -> f x + c <= g x ->
  sum_list (map f l) + c <= sum_list (map g l).
Proof.
  intros Hfg Hx Hc. induction l as [|y l IH]; [by apply elem_of_nil in Hx|].
  assert (sum_list (map f l) <= sum_list (map g l)) as Hle.
  { clear -Hfg. induction l as [|z l IH]; simpl; [lia|]. specialize (Hfg z). lia. }
  simpl. apply elem_of_cons in Hx as [<-|Hx].
  - lia.
  - specialize (IH Hx). specialize (Hfg y). lia.
Qed.

Lemma pending_add_le action P :
  pending config (add action P) <= pending config P.
Proof.
  unfold pending. induction (map_to_list (dependencies config)) as [|[k e] l IH];
    simpl; [lia|].
  destruct (has k P) eqn:Hk.
  - assert (has k (add action P) = true) as ->; [|lia].
    apply has_true, elem_of_add. right. by apply has_true.
  - destruct (has k (add action P)); lia.
Qed.

Lemma pending_add action e P :
  dependencies config !! action = Some e -> has action P = false ->
  pending config (add action P) + pushes e <= pending config P.
Proof.
  intros He HP. unfold pending.
  apply (sum_list_drop _ _ _ (action, e)).
  - intros [k e']. simpl. destruct (has k P) eqn:Hk; [|destruct (has k (add action P)); lia].
    assert (has k (add action P) = true) as ->; [|lia].
    apply has_true, elem_of_add. right. by apply has_true.
  - by apply elem_of_map_to_list.
  - simpl. rewrite HP.
    assert (has action (add action P) = true) as ->; [|lia].
    apply has_true, elem_of_add. by left.
Qed.

(** Every iteration brings the end nearer: what is on the stack, and what
    the entries not yet processed can still push, shrinks. *)
Lemma iteration_decreases action rest st :
  length (toProcess (iteration config action rest st))
    + pending config (processed (iteration config action rest st))
  <= length rest + pending config (processed st).
Proof.
  unfold iteration. destruct (has action (processed st)) eqn:HP; simpl; [lia|].
  destruct (dependencies config !! action) as [e|] eqn:He; simpl.
  - pose proof (pending_add action e _ He HP) as Hpend. unfold pushes in Hpend.
    destruct (Entry.dependencies e) as [ds|], (Entry.requires e) as [rs|]; simpl in *.
    + pose proof (length_push (add action (processed st)) rs
                    (fold_left (push_unprocessed (add action (processed st))) ds rest)).
      pose proof (length_push (add action (processed st)) ds rest). lia.
    + pose proof (length_push (add action (processed st)) ds rest). lia.
    + pose proof (length_push (add action (processed st)) rs rest). lia.
    + lia.
  - pose proof (pending_add_le action (processed st)). lia.
Qed.

Lemma loop_returns fuel : forall st,
  length (toProcess st) + pending config (processed st) < fuel ->
  is_Some (loop config fuel st).
Proof.
  induction fuel as [|fuel IH]; intros st Hlt; [lia|]. simpl.
  destruct (toProcess st) as [|action rest] eqn:Hstack; [eauto|].
  apply IH. pose proof (iteration_decreases action rest st). simpl in Hlt. lia.
Qed.

(** *** What it computes *)

Lemma elem_of_push x P ds : forall stack,
  x ∈ fold_left (push_unprocessed P) ds stack <-> x ∈ stack \/ (x ∈ ds /\ x ∉ P).
Proof.
  induction ds as [|d ds IH]; intros stack; simpl.
  - rewrite elem_of_nil. naive_solver.
  - rewrite IH. unfold push_unprocessed. destruct (has d P) eqn:E.
    + apply has_true in E. rewrite elem_of_cons. naive_solver.
    + apply has_false in E. rewrite !elem_of_cons. naive_solver.
Qed.

Lemma reach_out_edges actions a b :
  reach config actions a -> b ∈ out_edges config a -> reach config actions b.
Proof.
  unfold out_edges. intros Ha Hb.
  destruct (dependencies config !! a) as [e|] eqn:He; [|by apply elem_of_nil in Hb].
  by apply (reach_edge _ _ a e b).
Qed.

(** The iteration on an action met for the first time. *)
Lemma iteration_fresh action rest st :
  has action (processed st) = false ->
  let st' := iteration config action rest st in
  processed st' = add action (processed st) /\
  (forall x, x ∈ resolved st' <-> x ∈ resolved st \/ yields config action x) /\
  (forall x, x ∈ toProcess st' <->
             x ∈ rest \/ (x ∈ out_edges config action /\ x ∉ add action (processed st))) /\
  (NoDup (resolved st) -> NoDup (resolved st')).
Proof.
  intros HP. unfold iteration, yields, expansion, required, out_edges, edges.
  rewrite HP.
  destruct (dependencies config !! action) as [[acts ds rs sr de]|]; simpl.
  - destruct acts as [acts|], ds as [ds|], rs as [rs|]; simpl;
      (split; [done|]); (split; [|split]);
      try (intros x; rewrite ?elem_of_add_all, ?elem_of_push, ?elem_of_add,
             ?elem_of_app, ?list_elem_of_singleton, ?elem_of_nil; naive_solver);
      intros Hnd; repeat (apply NoDup_add_all || apply NoDup_add); done.
  - split; [done|]. split; [|split].
    + intros x. rewrite elem_of_add, list_elem_of_singleton, elem_of_nil. naive_solver.
    + intros x. rewrite elem_of_nil. naive_solver.
    + apply NoDup_add.
Qed.

Lemma iteration_invariant actions action rest st :
  toProcess st = action :: rest ->
  invariant config actions st ->
  invariant config actions (iteration config action rest st).
Proof.
  intros Hstack (I1 & I2 & I3 & I4 & I5 & I6).
  destruct (has action (processed st)) eqn:HP.
  - unfold iteration. rewrite HP. apply has_true in HP.
    rewrite Hstack in *. unfold invariant. simpl.
    repeat split; try done.
    + intros a Ha. destruct (I1 a Ha) as [?|[->|?]%elem_of_cons]; eauto.
    + intros a b Ha Hb. destruct (I2 a b Ha Hb) as [?|[->|?]%elem_of_cons]; eauto.
    + intros a Ha. apply I4. rewrite elem_of_cons. naive_solver.
  - destruct (iteration_fresh action rest st HP) as (Hp & Hr & Ht & Hn).
    assert (reach config actions action) as Hreach.
    { apply I4. right. rewrite Hstack. left. }
    apply has_false in HP. rewrite Hstack in *. unfold invariant.
    rewrite Hp. repeat split.
    + intros a Ha. rewrite elem_of_add, Ht.
      destruct (I1 a Ha) as [?|[->|?]%elem_of_cons]; eauto.
    + intros a b [->|Ha]%elem_of_add Hb; rewrite Ht.
      * destruct (decide (b ∈ add action (processed st))); eauto.
      * rewrite elem_of_add.
        destruct (I2 a b Ha Hb) as [?|[->|?]%elem_of_cons]; eauto.
    + intros a x [->|Ha]%elem_of_add Hy; apply Hr; eauto.
    + intros a [[->|Ha]%elem_of_add|[Ha|[Ha _]]%Ht]; eauto.
      * apply I4. right. by right.
      * by apply (reach_out_edges actions action).
    + intros x [Hx|Hx]%Hr.
      * destruct (I5 x Hx) as (a & Ha & Hy). exists a. rewrite elem_of_add. eauto.
      * exists action. rewrite elem_of_add. eauto.
    + by apply Hn.
Qed.

Lemma elem_of_rev (x : string) l : x ∈ rev l <-> x ∈ l.
Proof. rewrite !list_elem_of_In. symmetry. apply in_rev. Qed.

Lemma initial_invariant actions : invariant config actions (initial actions).
Proof.
  unfold invariant, initial. simpl. repeat split.
  - intros a Ha. right. by apply elem_of_rev.
  - intros a b Ha. by apply elem_of_nil in Ha.
  - intros a x Ha. by apply elem_of_nil in Ha.
  - intros a [Ha|Ha]; [by apply elem_of_nil in Ha|].
    apply reach_requested. by apply (elem_of_rev a actions).
  - intros x Hx. by apply elem_of_nil in Hx.
  - apply NoDup_nil_2.
Qed.

(** At the exit the processed actions are those the graph reaches, and the
    result is what they yield. *)
Lemma loop_result actions fuel : forall st r,
  invariant config actions st -> loop config fuel st = Some r ->
  NoDup r /\
  forall x, x ∈ r <-> exists a, reach config actions a /\ yields config a x.
Proof.
  induction fuel as [|fuel IH]; intros st r Hinv Hl; [done|]. simpl in Hl.
  destruct (toProcess st) as [|action rest] eqn:Hstack.
  - injection Hl as <-. destruct Hinv as (I1 & I2 & I3 & I4 & I5 & I6).
    rewrite Hstack in *. split; [done|].
    assert (forall a, reach config actions a -> a ∈ processed st) as Hall.
    { induction 1 as [a Ha|a e b Ha IHa He Hb].
      - destruct (I1 a Ha) as [?|?%elem_of_nil]; done.
      - destruct (I2 a b IHa) as [?|?%elem_of_nil]; [|done..].
        unfold out_edges. by rewrite He. }
    intros x. split.
    + intros (a & Ha & Hy)%I5. exists a. split; [|done]. apply I4. by left.
    + intros (a & Ha & Hy). apply (I3 a x); [|done]. by apply Hall.
  - apply (IH _ _ (iteration_invariant _ _ _ _ Hstack Hinv) Hl).
Qed.

(** More tests than needed change nothing. *)
Lemma loop_more fuel : forall st r fuel',
  loop config fuel st = Some r -> fuel <= fuel' -> loop config fuel' st = Some r.
Proof.
  induction fuel as [|fuel IH]; intros st r fuel' Hl Hle; [done|].
  destruct fuel' as [|fuel']; [lia|]. simpl in *.
  destruct (toProcess st) as [|action rest]; [done|].
  apply (IH _ _ _ Hl). lia.
Qed.

End Resolver.

Section ResolverClaims.
Import JS Dependencies.

Lemma resolveDependencies_returns config actions :
  is_Some (resolveDependencies actions (Some config)).
Proof.
  unfold resolveDependencies. apply loop_returns. unfold initial. simpl.
  rewrite length_rev. lia.
Qed.

Lemma resolveDependencies_result config actions r :
  resolveDependencies actions (Some config) = Some r ->
  NoDup r /\
  forall x, x ∈ r <-> exists a, reach config actions a /\ yields config a x.
Proof.
  unfold resolveDependencies. apply loop_result, initial_invariant.
Qed.

Lemma required_out_edges config a x :
  x ∈ required config a -> x ∈ out_edges config a.
Proof.
  unfold required, out_edges, edges.
  destruct (dependencies config !! a) as [e|]; simpl; [|done].
  rewrite elem_of_app. auto.
Qed.

(** C5, as the code has it.  For every table and every list of requested
    actions the loop ends and the result has no duplicates.  When a
    requested action and another one depend on each other, through
    [dependencies] or through [requires], the result contains the expansion
    of both: the [actions] their entries declare, or the action itself where
    the entry declares none; and it contains every action reached through a
    [requires] edge as it is. *)
Theorem resolveDependencies_cycle config actions :
  exists r,
    resolveDependencies actions (Some config) = Some r /\
    NoDup r /\
    forall a b,
      a ∈ actions -> b ∈ out_edges config a -> a ∈ out_edges config b ->
      (forall x, x ∈ expansion config a -> x ∈ r) /\
      (forall x, x ∈ expansion config b -> x ∈ r) /\
      (b ∈ required config a -> b ∈ r) /\
      (a ∈ required config b -> a ∈ r).
Proof.
  destruct (resolveDependencies_returns config actions) as [r Hr].
  exists r. split; [done|].
  destruct (resolveDependencies_result _ _ _ Hr) as [Hnd Hin]. split; [done|].
  intros a b Ha Hab Hba.
  assert (reach config actions a) as Rra by by apply reach_requested.
  assert (reach config actions b) as Rrb by by apply (reach_out_edges config actions a).
  repeat split.
  - intros x Hx. apply Hin. exists a. split; [done|]. by left.
  - intros x Hx. apply Hin. exists b. split; [done|]. by left.
  - intros Hb. apply Hin. exists a. split; [done|]. by right.
  - intros Hb. apply Hin. exists b. split; [done|]. by right.
Qed.

Lemma resolveDependencies_cycle_witness :
  exists r,
    resolveDependencies ["A"] (Some cycleOfRequires) = Some r /\ NoDup r /\
    "A" ∈ r /\ "B" ∈ r.
Proof.
  destruct (resolveDependencies_cycle cycleOfRequires ["A"]) as (r & Hr & Hnd & Hc).
  exists r. split; [done|]. split; [done|].
  assert ("A" ∈ ["A"]) as HA by (compute_done).
  assert ("B" ∈ out_edges cycleOfRequires "A") as HAB
    by (compute_done).
  assert ("A" ∈ out_edges cycleOfRequires "B") as HBA
    by (compute_done).
  destruct (Hc "A" "B" HA HAB HBA) as (Ha & _ & Hb & _). split.
  - apply Ha. compute_done.
  - apply Hb. compute_done.
Defined.

(** C5 as stated fails where the members of the cycle expand to other
    actions: [A] and [B] depend on each other, [A] is requested, and the
    result is [X] and [Y]. *)
Lemma cycle_members_not_in_result :
  "B" ∈ out_edges cycleOfAliases "A" /\ "A" ∈ out_edges cycleOfAliases "B" /\
  resolveDependencies ["A"] (Some cycleOfAliases) = Some ["X"; "Y"] /\
  ~ (exists r, resolveDependencies ["A"] (Some cycleOfAliases) = Some r /\
               NoDup r /\ "A" ∈ r /\ "B" ∈ r).
Proof.
  assert (resolveDependencies ["A"] (Some cycleOfAliases) = Some ["X"; "Y"]) as Hr
    by (vm_compute; reflexivity).
  repeat split; try (compute_done); try done.
  intros (r & Hr' & _ & HA & _). rewrite Hr in Hr'. injection Hr' as <-.
  revert HA. compute_done.
Qed.

(** *** Resolving twice *)

Lemma expansion_self config a x :
  selfExpanding config -> x ∈ expansion config a <-> x = a.
Proof.
  intros Hself. unfold expansion.
  destruct (dependencies config !! a) as [e|] eqn:He; simpl;
    [|by rewrite list_elem_of_singleton].
  pose proof (map_Forall_lookup_1 _ _ _ _ Hself He) as Hd. unfold declaresItself in Hd.
  destruct (Entry.actions e) as [acts|]; [|by rewrite list_elem_of_singleton].
  destruct Hd as [Hne Hall]. rewrite Forall_forall in Hall. split.
  - intros Hx. symmetry. by apply Hall.
  - intros ->. destruct acts as [|y acts]; [done|].
    rewrite <- (Hall y) by left. left.
Qed.

(** With such a table the result is what the graph reaches. *)
Lemma selfExpanding_result config actions r :
  selfExpanding config ->
  resolveDependencies actions (Some config) = Some r ->
  forall x, x ∈ r <-> reach config actions x.
Proof.
  intros Hself [_ Hr]%resolveDependencies_result x. rewrite Hr. split.
  - intros (a & Ha & [Hx|Hx]).
    + by apply (expansion_self _ _ _ Hself) in Hx as ->.
    + by apply (reach_out_edges config actions a), required_out_edges.
  - intros Hx. exists x. split; [done|]. left. by apply expansion_self.
Qed.

Lemma reach_reach config actions r :
  (forall x, x ∈ r <-> reach config actions x) ->
  forall x, reach config r x <-> reach config actions x.
Proof.
  intros Hr x. split.
  - induction 1 as [a Ha|a e b Ha IHa He Hb]; [by apply Hr|].
    by apply (reach_edge _ _ a e b).
  - intros Hx. apply reach_requested. by apply Hr.
Qed.

(** The built-in tables are of this kind. *)
Lemma staticDependencies_selfExpanding :
  Forall selfExpanding staticDependencies.
Proof. repeat constructor; unfold selfExpanding; compute_done. Qed.

(** C4, as the code has it.  Without a table the resolver returns its
    argument; with a table whose entries, where they declare [actions],
    declare their own key, resolving the result again gives the same set. *)
Theorem resolveDependencies_idempotent dependencyConfig actions :
  (forall config, dependencyConfig = Some config -> selfExpanding config) ->
  exists r1 r2,
    resolveDependencies actions dependencyConfig = Some r1 /\
    resolveDependencies r1 dependencyConfig = Some r2 /\
    forall x, x ∈ r2 <-> x ∈ r1.
Proof.
  destruct dependencyConfig as [config|]; intros Hself.
  - specialize (Hself config eq_refl).
    destruct (resolveDependencies_returns config actions) as [r1 H1].
    destruct (resolveDependencies_returns config r1) as [r2 H2].
    exists r1, r2. split; [done|]. split; [done|]. intros x.
    pose proof (selfExpanding_result _ _ _ Hself H1) as Hr1.
    rewrite (selfExpanding_result _ _ _ Hself H2 x), (Hr1 x).
    by apply reach_reach.
  - exists actions, actions. simpl. done.
Qed.

Lemma resolveDependencies_idempotent_witness :
  exists r1 r2,
    resolveDependencies ["s3:GetObject"; "s3:PutObject"] (Some s3Dependencies) = Some r1 /\
    resolveDependencies r1 (Some s3Dependencies) = Some r2 /\
    forall x, x ∈ r2 <-> x ∈ r1.
Proof.
  apply (resolveDependencies_idempotent (Some s3Dependencies)).
  intros config [= <-]. unfold selfExpanding. compute_done.
Defined.

(** C4 as stated fails where an entry expands to another action:
    [X] resolves to [Y], and [Y] to [Z]. *)
Lemma resolving_twice_differs :
  resolveDependencies ["X"] (Some chainOfAliases) = Some ["Y"] /\
  resolveDependencies ["Y"] (Some chainOfAliases) = Some ["Z"] /\
  ~ (exists r1 r2,
        resolveDependencies ["X"] (Some chainOfAliases) = Some r1 /\
        resolveDependencies r1 (Some chainOfAliases) = Some r2 /\
        forall x, x ∈ r2 <-> x ∈ r1).
Proof.
  assert (resolveDependencies ["X"] (Some chainOfAliases) = Some ["Y"]) as H1
    by (vm_compute; reflexivity).
  assert (resolveDependencies ["Y"] (Some chainOfAliases) = Some ["Z"]) as H2
    by (vm_compute; reflexivity).
  split; [done|]. split; [done|].
  intros (r1 & r2 & H1' & H2' & Heq).
  rewrite H1 in H1'. injection H1' as <-. rewrite H2 in H2'. injection H2' as <-.
  assert ("Z" ∈ ["Y"]) as Hz by (apply Heq; left).
  revert Hz. compute_done.
Qed.

End ResolverClaims.

(** ** Maps in insertion order *)

Section MapFacts.
Context {V : Type}.
Implicit Types (m : JSMap.t V) (k : string) (v : V).

Lemma get_set k k' v m :
  JSMap.get k' (JSMap.set k v m) = if String.eqb k k' then Some v else JSMap.get k' m.
Proof.
  induction m as [|[k0 v0] m IH]; simpl; [done|].
  destruct (String.eqb_spec k0 k) as [->|Hne]; simpl.
  - by destruct (String.eqb k k').
  - rewrite IH. destruct (String.eqb_spec k0 k') as [->|Hne']; [|done].
    by rewrite (proj2 (String.eqb_neq k k')).
Qed.

Lemma get_None k m : JSMap.get k m = None <-> k ∉ JSMap.keys m.
Proof.
  unfold JSMap.keys. induction m as [|[k0 v0] m IH]; simpl.
  - split; [intros _|done]. apply not_elem_of_nil.
  - rewrite not_elem_of_cons. destruct (String.eqb_spec k0 k); naive_solver.
Qed.

Lemma get_Some_elem k v m : JSMap.get k m = Some v -> (k, v) ∈ m.
Proof.
  induction m as [|[k0 v0] m IH]; simpl; [done|].
  destruct (String.eqb_spec k0 k) as [->|Hne].
  - intros [= ->]. left.
  - intros H. right. by apply IH.
Qed.

Lemma elem_get k v m : NoDup (JSMap.keys m) -> (k, v) ∈ m -> JSMap.get k m = Some v.
Proof.
  unfold JSMap.keys. induction m as [|[k0 v0] m IH]; simpl.
  - intros _ H. by apply elem_of_nil in H.
  - intros [Hk0 Hnd]%NoDup_cons [[= -> ->]|Hin]%elem_of_cons.
    + by rewrite String.eqb_refl.
    + destruct (String.eqb_spec k0 k) as [->|Hne]; [|by apply IH].
      exfalso. apply Hk0. apply list_elem_of_fmap. by exists (k, v).
Qed.

Lemma elem_values v m :
  NoDup (JSMap.keys m) -> v ∈ JSMap.values m <-> exists k, JSMap.get k m = Some v.
Proof.
  intros Hnd. unfold JSMap.values. rewrite list_elem_of_fmap. split.
  - intros ([k v'] & -> & Hin). exists k. by apply elem_get.
  - intros (k & Hk). exists (k, v). split; [done|]. by apply get_Some_elem.
Qed.

Lemma keys_set k v m :
  JSMap.keys (JSMap.set k v m) =
    if JSMap.has k m then JSMap.keys m else JSMap.keys m ++ [k].
Proof.
  unfold JSMap.has, JSMap.keys. induction m as [|[k0 v0] m IH]; simpl; [done|].
  destruct (String.eqb_spec k0 k) as [->|Hne]; simpl; [done|].
  rewrite IH. by destruct (JSMap.get k m).
Qed.

Lemma NoDup_keys_set k v m :
  NoDup (JSMap.keys m) -> NoDup (JSMap.keys (JSMap.set k v m)).
Proof.
  intros Hnd. rewrite keys_set. unfold JSMap.has.
  destruct (JSMap.get k m) eqn:E; [done|]. apply get_None in E.
  apply NoDup_app. split; [done|]. split; [|apply NoDup_singleton].
  by intros x Hx ->%list_elem_of_singleton.
Qed.

Lemma values_set_elem x k v m :
  x ∈ JSMap.values (JSMap.set k v m) -> x = v \/ x ∈ JSMap.values m.
Proof.
  unfold JSMap.values. induction m as [|[k0 v0] m IH]; simpl.
  - intros ->%list_elem_of_singleton. by left.
  - destruct (String.eqb k0 k); simpl; rewrite !elem_of_cons; naive_solver.
Qed.

Lemma delete_absent k m : JSMap.get k m = None -> JSMap.delete k m = m.
Proof.
  unfold JSMap.delete. induction m as [|[k0 v0] m IH]; simpl; [done|].
  destruct (String.eqb k0 k); simpl; [done|]. intros H. by rewrite IH.
Qed.

Lemma keys_delete k k' m :
  k' ∈ JSMap.keys (JSMap.delete k m) <-> k' <> k /\ k' ∈ JSMap.keys m.
Proof.
  unfold JSMap.keys, JSMap.delete. induction m as [|[k0 v0] m IH]; simpl.
  - rewrite elem_of_nil. naive_solver.
  - destruct (String.eqb_spec k0 k) as [->|Hne]; simpl;
      rewrite ?elem_of_cons, IH; naive_solver.
Qed.

End MapFacts.

(** ** The engine *)

Section Engine.
Import JS Types PolicyCore.

Lemma keys_sortInPlace aliased st :
  JSMap.keys (selections (sortInPlace aliased st)) = JSMap.keys (selections st).
Proof.
  unfold sortInPlace, JSMap.keys. simpl. rewrite map_map. apply map_ext.
  intros [k v]. simpl. by destruct (aliased k).
Qed.

Lemma keys_writeInPlace written st :
  JSMap.keys (selections (writeInPlace written st)) = JSMap.keys (selections st).
Proof.
  unfold writeInPlace, JSMap.keys. simpl. rewrite map_map. by apply map_ext.
Qed.

Lemma setActions_keys st id actions :
  JSMap.keys (selections (setActions st id actions)) = JSMap.keys (selections st).
Proof.
  unfold setActions. destruct (JSMap.get id (selections st)) eqn:E; [|done].
  simpl. rewrite keys_set. unfold JSMap.has. by rewrite E.
Qed.

Lemma setARN_keys st id arn :
  JSMap.keys (selections (setARN st id arn)) = JSMap.keys (selections st).
Proof.
  unfold setARN. destruct (JSMap.get id (selections st)) eqn:E; [|done].
  simpl. rewrite keys_set. unfold JSMap.has. by rewrite E.
Qed.

Lemma setActions_resources st id actions :
  resources (setActions st id actions) = resources st.
Proof. unfold setActions. by destruct (JSMap.get id (selections st)). Qed.

Lemma setARN_resources st id arn : resources (setARN st id arn) = resources st.
Proof. unfold setARN. by destruct (JSMap.get id (selections st)). Qed.

(** The methods keep the catalogue and the selections together. *)
Lemma reachable_consistent st : reachable st -> consistent st.
Proof.
  unfold consistent.
  induction 1 as [|st r _ IH|st rid _ IH|st rid acts _ IH|st rid arn _ IH
                 |st arns _ IH|st f _ IH|st al _ IH|st w _ IH _|st _ IH]; intros id.
  - intros H. by apply elem_of_nil in H.
  - simpl. rewrite keys_set. unfold JSMap.has at 2.
    destruct (JSMap.get (AWSResource.id r) (selections st)) eqn:Hs.
    + assert (AWSResource.id r ∈ JSMap.keys (selections st)) as Hin.
      { destruct (decide (AWSResource.id r ∈ JSMap.keys (selections st))) as [|Hn]; [done|].
        apply get_None in Hn. congruence. }
      destruct (JSMap.has _ (resources st)); [apply IH|].
      intros [?| ->%list_elem_of_singleton]%elem_of_app; [by apply IH|done].
    + rewrite keys_set. unfold JSMap.has at 2. rewrite Hs.
      destruct (JSMap.has _ (resources st)).
      * intros Hin. apply elem_of_app. left. by apply IH.
      * rewrite !elem_of_app. intros [?|?]; [left; by apply IH|by right].
  - simpl. rewrite !keys_delete. intros [? ?]. split; [done|]. by apply IH.
  - rewrite setActions_keys, setActions_resources. apply IH.
  - rewrite setARN_keys, setARN_resources. apply IH.
  - apply IH.
  - apply IH.
  - rewrite (keys_sortInPlace al st). apply IH.
  - rewrite (keys_writeInPlace w st). apply IH.
  - intros H. by apply elem_of_nil in H.
Qed.

(** C9.  In every state of an engine, for every resource id without a
    selection, [setActions] and [setARN] return the state as it was, and so
    does [removeResource]: catalogue, selections and identifier catalogue are
    unchanged. *)
Theorem unknown_resource_is_noop st resourceId :
  reachable st ->
  JSMap.get resourceId (selections st) = None ->
  (forall actions, setActions st resourceId actions = st) /\
  (forall arn, setARN st resourceId arn = st) /\
  removeResource st resourceId = st.
Proof.
  intros Hreach Hsel. split; [|split].
  - intros actions. unfold setActions. by rewrite Hsel.
  - intros arn. unfold setARN. by rewrite Hsel.
  - assert (JSMap.get resourceId (resources st) = None) as Hres.
    { apply get_None. intros Hin. apply get_None in Hsel. apply Hsel.
      by apply (reachable_consistent st Hreach). }
    unfold removeResource. rewrite !delete_absent by done. by destruct st.
Qed.

Lemma unknown_resource_is_noop_witness :
  let st := setActions (addResource new (sampleResource "s3-test" "s3"))
              "s3-test" ["s3:GetObject"] in
  (forall actions, setActions st "ec2-test" actions = st) /\
  (forall arn, setARN st "ec2-test" arn = st) /\
  removeResource st "ec2-test" = st.
Proof.
  apply unknown_resource_is_noop.
  - apply reachable_setActions, reachable_addResource, reachable_new.
  - reflexivity.
Defined.

(** C3, as the code has it.  Without a table the resolver of
    [src/utils/dependencies.ts] returns its argument as it is, duplicates
    included.  An engine without a registered resolver and without an entry
    for any of the actions returns the first occurrence of every action, in
    order.  Both results have exactly the elements of the argument, and both
    are the argument when it has no duplicates. *)
Theorem resolveDependencies_without_table actions :
  Dependencies.resolveDependencies actions None = Some actions /\
  (forall st,
      dependencyResolver st = None ->
      (forall a, a ∈ actions -> JSMap.get a (dependencies st) = None) ->
      resolveDependencies st actions = newSet actions) /\
  NoDup (newSet actions) /\
  newSet actions `sublist_of` actions /\
  (forall x, x ∈ newSet actions <-> x ∈ actions) /\
  (NoDup actions -> newSet actions = actions).
Proof.
  split; [done|]. split; [|split; [|split; [|split]]].
  - intros st Hres Hdeps. unfold resolveDependencies. rewrite Hres.
    generalize (newSet actions) as set.
    induction actions as [|a actions IH]; intros set; simpl; [done|].
    rewrite (Hdeps a) by left. apply IH. intros b Hb. apply Hdeps. by right.
  - apply NoDup_newSet.
  - apply newSet_sublist.
  - intros x. apply elem_of_newSet.
  - apply newSet_NoDup_id.
Qed.

Lemma resolveDependencies_without_table_witness :
  resolveDependencies new ["b"; "a"; "b"] = ["b"; "a"] /\
  newSet ["b"; "a"] = ["b"; "a"].
Proof.
  split.
  - apply (proj1 (proj2 (resolveDependencies_without_table ["b"; "a"; "b"])) new).
    + reflexivity.
    + intros a _. reflexivity.
  - apply (proj2 (proj2 (proj2 (proj2 (proj2
             (resolveDependencies_without_table ["b"; "a"])))))).
    compute_done.
Defined.

(** C3 as stated fails without a table: the duplicates stay. *)
Lemma duplicates_stay_without_table :
  Dependencies.resolveDependencies ["a"; "a"] None = Some ["a"; "a"] /\
  ~ NoDup ["a"; "a"] /\
  Dependencies.resolveDependencies ["a"; "a"] None <> Some (newSet ["a"; "a"]).
Proof.
  split; [done|]. split; [|discriminate].
  intros [Hn _]%NoDup_cons. apply Hn. left.
Qed.

End Engine.

(** ** The two passes of [generatePolicy] *)

Section Passes.
Import JS Types PolicyCore.

Lemma resourceOf_with_Action s a : resourceOf (with_Action s a) = resourceOf s.
Proof. done. Qed.

Lemma optimize_step_merged groups seen statement :
  merged groups seen -> merged (optimize_step groups statement) (seen ++ [statement]).
Proof.
  intros (Hnd & Hkey & Hseen & Hact). unfold optimize_step.
  destruct (JSMap.get (resourceOf statement) groups) as [existing|] eqn:E.
  - destruct (Hkey _ _ E) as [Hex (s0 & Hs0 & Hres0)].
    split; [by apply NoDup_keys_set|]. split; [|split].
    + intros k o. rewrite get_set.
      destruct (String.eqb_spec (resourceOf statement) k) as [<-|Hne].
      * intros [= <-]. split; [done|]. exists s0. rewrite elem_of_app. auto.
      * intros Ho. destruct (Hkey _ _ Ho) as [? (s1 & ? & ?)]. split; [done|].
        exists s1. rewrite elem_of_app. auto.
    + intros s [Hs| ->%list_elem_of_singleton]%elem_of_app.
      * destruct (Hseen s Hs) as (o & Ho & Hsub). rewrite get_set.
        destruct (String.eqb_spec (resourceOf statement) (resourceOf s)) as [Heq|Hne].
        -- eexists. split; [done|]. intros a Ha. unfold actionsOf at 1. simpl.
           apply elem_of_newSet, elem_of_app. left.
           rewrite Heq in E. rewrite E in Ho. injection Ho as <-. by apply Hsub.
        -- exists o. done.
      * rewrite get_set, String.eqb_refl. eexists. split; [done|].
        intros a Ha. unfold actionsOf at 1. simpl.
        apply elem_of_newSet, elem_of_app. by right.
    + intros k o a. rewrite get_set.
      destruct (String.eqb_spec (resourceOf statement) k) as [<-|Hne].
      * intros [= <-]. unfold actionsOf at 1. simpl.
        intros [Ha|Ha]%elem_of_newSet%elem_of_app.
        -- destruct (Hact _ _ a E Ha) as (s & ? & ? & ?).
           exists s. rewrite elem_of_app. auto.
        -- exists statement. rewrite elem_of_app, list_elem_of_singleton. auto.
      * intros Ho Ha. destruct (Hact _ _ a Ho Ha) as (s & ? & ? & ?).
        exists s. rewrite elem_of_app. auto.
  - split; [by apply NoDup_keys_set|]. split; [|split].
    + intros k o. rewrite get_set.
      destruct (String.eqb_spec (resourceOf statement) k) as [<-|Hne].
      * intros [= <-]. split; [done|].
        exists statement. rewrite elem_of_app, list_elem_of_singleton. auto.
      * intros Ho. destruct (Hkey _ _ Ho) as [? (s1 & ? & ?)]. split; [done|].
        exists s1. rewrite elem_of_app. auto.
    + intros s [Hs| ->%list_elem_of_singleton]%elem_of_app.
      * destruct (Hseen s Hs) as (o & Ho & Hsub). rewrite get_set.
        destruct (String.eqb_spec (resourceOf statement) (resourceOf s)) as [Heq|Hne].
        -- rewrite Heq in E. congruence.
        -- exists o. done.
      * rewrite get_set, String.eqb_refl. eexists. split; done.
    + intros k o a. rewrite get_set.
      destruct (String.eqb_spec (resourceOf statement) k) as [<-|Hne].
      * intros [= <-] Ha.
        exists statement. rewrite elem_of_app, list_elem_of_singleton. auto.
      * intros Ho Ha. destruct (Hact _ _ a Ho Ha) as (s & ? & ? & ?).
        exists s. rewrite elem_of_app. auto.
Qed.

Lemma optimize_fold_merged statements : forall groups seen,
  merged groups seen ->
  merged (fold_left optimize_step statements groups) (seen ++ statements).
Proof.
  induction statements as [|s statements IH]; intros groups seen Hm; simpl.
  - by rewrite app_nil_r.
  - rewrite (cons_middle s seen statements), app_assoc.
    by apply IH, optimize_step_merged.
Qed.

Lemma merged_empty : merged [] [].
Proof.
  split; [apply NoDup_nil_2|]. split; [done|]. split; [|done].
  intros s Hs. by apply elem_of_nil in Hs.
Qed.

Lemma keys_of_values (groups : JSMap.t PolicyStatement.t) :
  (forall k o, (k, o) ∈ groups -> resourceOf o = k) ->
  map resourceOf (JSMap.values groups) = JSMap.keys groups.
Proof.
  unfold JSMap.values, JSMap.keys.
  induction groups as [|[k o] groups IH]; intros H; simpl; [done|].
  rewrite (H k o) by left. f_equal. apply IH. intros k' o' Hin. apply H. by right.
Qed.

(** The second pass, on any list of statements. *)
Lemma optimizeStatements_merges statements :
  NoDup (map resourceOf (optimizeStatements statements)) /\
  (forall o, o ∈ optimizeStatements statements ->
             exists s, s ∈ statements /\
                       PolicyStatement.Resource o = PolicyStatement.Resource s) /\
  (forall s, s ∈ statements ->
             exists o, o ∈ optimizeStatements statements /\
                       resourceOf o = resourceOf s /\
                       forall a, a ∈ actionsOf s -> a ∈ actionsOf o) /\
  (forall o a, o ∈ optimizeStatements statements -> a ∈ actionsOf o ->
               exists s, s ∈ statements /\ resourceOf s = resourceOf o /\ a ∈ actionsOf s).
Proof.
  unfold optimizeStatements.
  destruct (optimize_fold_merged statements [] [] merged_empty)
    as (Hnd & Hkey & Hseen & Hact). simpl in *.
  set (groups := fold_left optimize_step statements []) in *.
  split; [|split; [|split]].
  - rewrite keys_of_values; [done|]. intros k o Hin.
    by apply (Hkey k o), elem_get.
  - intros o (k & Ho)%elem_values; [|done]. by apply (Hkey k o).
  - intros s Hs. destruct (Hseen s Hs) as (o & Ho & Hsub). exists o.
    split; [apply elem_values; eauto|]. split; [|done]. by apply (Hkey _ _ Ho).
  - intros o a (k & Ho)%elem_values Ha; [|done].
    destruct (Hact k o a Ho Ha) as (s & ? & ? & ?). exists s.
    split; [done|]. split; [|done]. destruct (Hkey _ _ Ho) as [-> _]. done.
Qed.

(** The first pass gives every statement one identifier. *)
Lemma generate_step_One st statementMap selection :
  (forall s, s ∈ JSMap.values statementMap ->
             exists r, PolicyStatement.Resource s = One r) ->
  forall s, s ∈ JSMap.values (generate_step st statementMap selection) ->
            exists r, PolicyStatement.Resource s = One r.
Proof.
  intros Hall s. unfold generate_step.
  destruct (Selection.actions selection); [apply Hall|].
  destruct (JSMap.get _ (resources st)); [|apply Hall].
  match goal with |- context [JSMap.get ?k statementMap] =>
    destruct (JSMap.get k statementMap) as [existing|] eqn:E end.
  - destruct (PolicyStatement.Action existing); [apply Hall|].
    intros [->|Hs]%values_set_elem; [|by apply Hall]. simpl.
    apply Hall. apply get_Some_elem in E. unfold JSMap.values.
    apply list_elem_of_fmap. by eexists (_, existing).
  - intros [->|Hs]%values_set_elem; [|by apply Hall]. simpl. eauto.
Qed.

Lemma statements_One st s :
  s ∈ statements st -> exists r, PolicyStatement.Resource s = One r.
Proof.
  unfold statements.
  assert (forall sels acc,
             (forall s, s ∈ JSMap.values acc ->
                        exists r, PolicyStatement.Resource s = One r) ->
             forall s, s ∈ JSMap.values (fold_left (generate_step st) sels acc) ->
                       exists r, PolicyStatement.Resource s = One r) as Hfold.
  { induction sels as [|sel sels IH]; intros acc Hacc; simpl; [done|].
    apply IH. by apply generate_step_One. }
  apply Hfold. intros s' Hs'. by apply elem_of_nil in Hs'.
Qed.

(** The second pass.  The document of [generatePolicy] has at most one
    statement for a resource.  The statements of the first pass are grouped by
    resource alone: every first-pass statement has its actions in the one
    statement of its resource, and that statement has no action from
    elsewhere.  Two selections with the same identifier and different
    actions give one statement with the actions of both. *)
Theorem generatePolicy_one_statement_per_identifier st :
  NoDup (map PolicyStatement.Resource (Statement (generatePolicy st))) /\
  (forall s, s ∈ statements st ->
             exists o, o ∈ Statement (generatePolicy st) /\
                       PolicyStatement.Resource o = PolicyStatement.Resource s /\
                       forall a, a ∈ actionsOf s -> a ∈ actionsOf o) /\
  (forall o a, o ∈ Statement (generatePolicy st) -> a ∈ actionsOf o ->
               exists s, s ∈ statements st /\
                         PolicyStatement.Resource s = PolicyStatement.Resource o /\
                         a ∈ actionsOf s) /\
  Statement (generatePolicy twoSelections) =
    [{| PolicyStatement.Effect := Allow;
        PolicyStatement.Action := Many ["s3:GetObject"; "ec2:DescribeInstances"];
        PolicyStatement.Resource := One "arn:aws:x";
        PolicyStatement.Condition := None |}].
Proof.
  simpl Statement.
  destruct (optimizeStatements_merges (statements st)) as (Hnd & Hres & Hin & Hout).
  assert (forall o, o ∈ optimizeStatements (statements st) ->
                    exists r, PolicyStatement.Resource o = One r) as Hone.
  { intros o (s & Hs & ->)%Hres. by apply (statements_One st). }
  assert (forall s o, s ∈ statements st -> o ∈ optimizeStatements (statements st) ->
                      resourceOf o = resourceOf s ->
                      PolicyStatement.Resource o = PolicyStatement.Resource s) as Heq.
  { intros s o Hs Ho. unfold resourceOf.
    destruct (statements_One st s Hs) as [r ->], (Hone o Ho) as [r' ->]. simpl.
    by intros ->. }
  split; [|split; [|split]].
  - apply (NoDup_fmap_1 keyOf). by rewrite <- list_fmap_compose.
  - intros s Hs. destruct (Hin s Hs) as (o & Ho & Hk & Hsub). exists o.
    split; [done|]. split; [by apply Heq|done].
  - intros o a Ho Ha. destruct (Hout o a Ho Ha) as (s & Hs & Hk & Hsa). exists s.
    split; [done|]. split; [|done]. symmetry. by apply Heq.
  - reflexivity.
Qed.

Lemma generatePolicy_one_statement_per_identifier_witness :
  exists o, o ∈ Statement (generatePolicy twoSelections) /\
            PolicyStatement.Resource o = One "arn:aws:x" /\
            forall a, a ∈ ["ec2:DescribeInstances"] -> a ∈ actionsOf o.
Proof.
  apply (proj1 (proj2 (generatePolicy_one_statement_per_identifier twoSelections))
           {| PolicyStatement.Effect := Allow;
              PolicyStatement.Action := Many ["ec2:DescribeInstances"];
              PolicyStatement.Resource := One "arn:aws:x";
              PolicyStatement.Condition := None |}).
  compute_done.
Defined.

(** C1.  The first pass files a statement under one text, the identifier, a
    colon and the sorted actions, so selections with different identifiers
    can have the same key.  In [collidingSelections], an engine the methods
    make, the action of the second selection is for the identifier
    [arn:aws:s3:::b:s3], as are those of the third and the fourth.  The
    document unites the actions of the third and the fourth in the statement
    of that identifier, and files the action of the second, unprefixed, in
    the statement of [arn:aws:s3:::b]: no statement of its own identifier
    holds it. *)
Theorem generatePolicy_key_collision :
  reachable collidingSelections /\
  map (fun sel => (resourceArn sel, Selection.actions sel))
      (Snapshot.selections (getState collidingSelections))
  = [("arn:aws:s3:::b", ["s3:GetObject"]);
     ("arn:aws:s3:::b:s3", ["GetObject"]);
     ("arn:aws:s3:::b:s3", ["PutObject"]);
     ("arn:aws:s3:::b:s3", ["PutObject"; "DeleteObject"])] /\
  Statement (generatePolicy collidingSelections)
  = [{| PolicyStatement.Effect := Allow;
        PolicyStatement.Action := Many ["s3:GetObject"; "GetObject"];
        PolicyStatement.Resource := One "arn:aws:s3:::b";
        PolicyStatement.Condition := None |};
     {| PolicyStatement.Effect := Allow;
        PolicyStatement.Action := Many ["s3:PutObject"; "s3:DeleteObject"];
        PolicyStatement.Resource := One "arn:aws:s3:::b:s3";
        PolicyStatement.Condition := None |}] /\
  (forall o, o ∈ Statement (generatePolicy collidingSelections) ->
             PolicyStatement.Resource o = One "arn:aws:s3:::b:s3" ->
             ~ "s3:GetObject" ∈ actionsOf o /\ ~ "GetObject" ∈ actionsOf o).
Proof.
  split; [|split; [done|split; [done|]]].
  - unfold collidingSelections.
    repeat first [apply reachable_setActions | apply reachable_setARN
                 | apply reachable_addResource | apply reachable_new].
  - change (Statement (generatePolicy collidingSelections)) with
      [{| PolicyStatement.Effect := Allow;
          PolicyStatement.Action := Many ["s3:GetObject"; "GetObject"];
          PolicyStatement.Resource := One "arn:aws:s3:::b";
          PolicyStatement.Condition := None |};
       {| PolicyStatement.Effect := Allow;
          PolicyStatement.Action := Many ["s3:PutObject"; "s3:DeleteObject"];
          PolicyStatement.Resource := One "arn:aws:s3:::b:s3";
          PolicyStatement.Condition := None |}].
    intros o [->|[->|[]%elem_of_nil]%elem_of_cons]%elem_of_cons; simpl; [done|].
    intros _. unfold actionsOf. simpl. rewrite !elem_of_cons, !elem_of_nil.
    split; intros [?|[?|[]]]; discriminate.
Qed.

End Passes.

(** * Further properties *)

(** ** The wrappers of [parseARN] *)

Section Wrappers.
Import JS RegExp Arn.

Lemma validateARNFormat_exec x :
  validateARNFormat x = true <-> is_Some (exec parsePattern x).
Proof.
  unfold validateARNFormat, test. change formatPattern with (ungroup parsePattern).
  rewrite <- (exec_ungroup parsePattern x).
  destruct (exec (ungroup parsePattern) x); split; try done; eauto.
Qed.

Lemma split_head_free c s : free_of c (hd EmptyString (split c s)) = true.
Proof.
  unfold free_of. induction s as [|d s IH]; simpl; [done|].
  destruct (Ascii.eqb d c) eqn:E; simpl; [done|].
  pose proof (split_nonempty c s) as Hne.
  destruct (split c s) as [|h t]; [done|]. simpl in *. by rewrite E, IH.
Qed.

(** What a parsed identifier says of the text it was parsed from. *)
Lemma parseARN_inv x parsed :
  parseARN x = Some parsed ->
  exists rest,
    exec parsePattern x =
      Some [partition parsed; service parsed; region parsed; accountId parsed; rest] /\
    (resourceType parsed = None -> resource parsed = rest) /\
    (forall t, resourceType parsed = Some t ->
       service parsed <> "s3" /\
       ((includes "/" rest = true /\ rest = t +:+ "/" +:+ resource parsed /\
         free_of "/" t = true) \/
        (includes "/" rest = false /\ rest = t +:+ ":" +:+ resource parsed /\
         free_of ":" t = true))).
Proof.
  unfold parseARN. destruct (exec parsePattern x) as [caps|] eqn:Hc; [|done].
  destruct (parsePattern_sound _ _ Hc) as (p & s & r & a & rest & -> & _).
  destruct (String.eqb_spec s "s3") as [->|Hs3].
  { intros [= <-]. exists rest. simpl. split; [done|]. split; [done|]. intros t. discriminate. }
  destruct (includes "/" rest) eqn:Hslash.
  { intros [= <-]. exists rest. simpl. split; [done|]. split; [discriminate|].
    intros t [= <-]. split; [done|]. left. split; [done|].
    split; [symmetry; exact (split_head_tail "/" rest Hslash)|]. apply split_head_free. }
  destruct (includes ":" rest) eqn:Hcolon.
  { intros [= <-]. exists rest. simpl. split; [done|]. split; [discriminate|].
    intros t [= <-]. split; [done|]. right. split; [done|].
    split; [symmetry; exact (split_head_tail ":" rest Hcolon)|]. apply split_head_free. }
  intros [= <-]. exists rest. simpl. split; [done|]. split; [done|]. intros t. discriminate.
Qed.

(** X3.  [extractServiceFromARN] returns the third colon-delimited field of
    every identifier [validateARNFormat] accepts, and null for every other
    text. *)
Theorem extractServiceFromARN_third_field x :
  extractServiceFromARN x = if validateARNFormat x then split ":" x !! 2 else None.
Proof.
  unfold extractServiceFromARN.
  destruct (parseARN x) as [parsed|] eqn:Hp.
  - destruct (parseARN_inv _ _ Hp) as (rest & Hc & _).
    assert (validateARNFormat x = true) as -> by (apply validateARNFormat_exec; eauto).
    rewrite (parsePattern_fields _ _ _ _ _ _ Hc). simpl.
    destruct (parsePattern_sound _ _ Hc) as (? & s & ? & ? & ? & [= <- <- <- <- <-] & _ & _
                                              & _ & _ & _ & _ & _ & Hs & _).
    by rewrite (proj2 (String.eqb_neq _ _) Hs).
  - destruct (validateARNFormat x) eqn:Hv; [|done].
    apply validateARNFormat_exec, parseARN_exec in Hv. rewrite Hp in Hv. by destruct Hv.
Qed.

(** X4.  What [extractResourceTypeFromARN] returns is never the empty text, is
    never returned for the service [s3], and stands in the identifier right
    after the fifth colon, followed by a slash, or by a colon where the
    resource part has no slash. *)
Theorem extractResourceTypeFromARN_some x t :
  extractResourceTypeFromARN x = Some t ->
  t <> EmptyString /\
  exists parsed,
    parseARN x = Some parsed /\ service parsed <> "s3" /\
    ((x = "arn:" +:+ partition parsed +:+ ":" +:+ service parsed +:+ ":" +:+ region parsed
           +:+ ":" +:+ accountId parsed +:+ ":" +:+ t +:+ "/" +:+ resource parsed /\
      free_of "/" t = true) \/
     (x = "arn:" +:+ partition parsed +:+ ":" +:+ service parsed +:+ ":" +:+ region parsed
           +:+ ":" +:+ accountId parsed +:+ ":" +:+ t +:+ ":" +:+ resource parsed /\
      free_of ":" t = true /\ free_of "/" (resource parsed) = true)).
Proof.
  unfold extractResourceTypeFromARN.
  destruct (parseARN x) as [parsed|] eqn:Hp; [|done].
  destruct (resourceType parsed) as [t'|] eqn:Ht; [|done].
  destruct (String.eqb_spec t' EmptyString) as [->|Hne]; [done|]. intros [= ->].
  split; [done|]. exists parsed. split; [done|].
  destruct (parseARN_inv _ _ Hp) as (rest & Hc & _ & Hsome).
  destruct (Hsome t Ht) as [Hs3 Hform]. split; [done|].
  destruct (parsePattern_sound _ _ Hc) as (? & ? & ? & ? & ? & [= <- <- <- <- <-] & -> & _).
  destruct Hform as [(_ & -> & Hfree)|(Hslash & -> & Hfree)].
  - left. done.
  - right. split; [done|]. split; [done|].
    rewrite includes_char in Hslash. apply negb_false_iff in Hslash.
    rewrite !free_of_append in Hslash. by apply andb_prop in Hslash as [_ [_ ?]%andb_prop].
Qed.

Lemma extractResourceTypeFromARN_some_witness :
  "instance" <> EmptyString /\
  exists parsed,
    parseARN "arn:aws:ec2:us-east-1:123:instance/i-123" = Some parsed /\
    service parsed <> "s3" /\
    (("arn:aws:ec2:us-east-1:123:instance/i-123"
        = "arn:" +:+ partition parsed +:+ ":" +:+ service parsed +:+ ":" +:+ region parsed
           +:+ ":" +:+ accountId parsed +:+ ":" +:+ "instance" +:+ "/" +:+ resource parsed /\
      free_of "/" "instance" = true) \/
     ("arn:aws:ec2:us-east-1:123:instance/i-123"
        = "arn:" +:+ partition parsed +:+ ":" +:+ service parsed +:+ ":" +:+ region parsed
           +:+ ":" +:+ accountId parsed +:+ ":" +:+ "instance" +:+ ":" +:+ resource parsed /\
      free_of ":" "instance" = true /\ free_of "/" (resource parsed) = true)).
Proof.
  apply (extractResourceTypeFromARN_some "arn:aws:ec2:us-east-1:123:instance/i-123").
  reflexivity.
Defined.

(** X5.  Where the parsed resource type is not the empty text, [formatARN]
    gives back the identifier that was parsed, or, where the type was followed
    by a colon, that identifier with this colon replaced by a slash. *)
Theorem formatARN_parseARN x parsed :
  parseARN x = Some parsed ->
  resourceType parsed <> Some EmptyString ->
  formatARN parsed = x \/
  exists head,
    x = head +:+ ":" +:+ resource parsed /\
    formatARN parsed = head +:+ "/" +:+ resource parsed /\
    free_of "/" (resource parsed) = true.
Proof.
  intros Hp Hne. destruct (parseARN_inv _ _ Hp) as (rest & Hc & Hnone & Hsome).
  destruct (parsePattern_sound _ _ Hc) as (? & ? & ? & ? & ? & [= <- <- <- <- <-] & -> & _).
  unfold formatARN. destruct (resourceType parsed) as [t|] eqn:Ht.
  - destruct (String.eqb_spec t EmptyString) as [->|_]; [done|].
    destruct (Hsome t eq_refl) as [_ [(_ & -> & _)|(Hslash & -> & _)]]; [by left|].
    right.
    exists ("arn:" +:+ partition parsed +:+ ":" +:+ service parsed +:+ ":" +:+ region parsed
              +:+ ":" +:+ accountId parsed +:+ ":" +:+ t).
    rewrite !append_assoc. split; [done|]. split; [done|].
    rewrite includes_char in Hslash. apply negb_false_iff in Hslash.
    rewrite !free_of_append in Hslash. by apply andb_prop in Hslash as [_ [_ ?]%andb_prop].
  - left. by rewrite (Hnone eq_refl).
Qed.

Lemma formatARN_parseARN_witness :
  formatARN {| partition := "aws"; service := "lambda"; region := "us-west-2";
               accountId := "123456789012"; resource := "MyFunction";
               resourceType := Some "function" |}
    = "arn:aws:lambda:us-west-2:123456789012:function:MyFunction" \/
  exists head,
    "arn:aws:lambda:us-west-2:123456789012:function:MyFunction" = head +:+ ":" +:+ "MyFunction" /\
    formatARN {| partition := "aws"; service := "lambda"; region := "us-west-2";
                 accountId := "123456789012"; resource := "MyFunction";
                 resourceType := Some "function" |} = head +:+ "/" +:+ "MyFunction" /\
    free_of "/" "MyFunction" = true.
Proof.
  apply (formatARN_parseARN "arn:aws:lambda:us-west-2:123456789012:function:MyFunction").
  - reflexivity.
  - discriminate.
Defined.

End Wrappers.

(** ** Patterns with a wildcard *)

Section Wildcards.
Import JS RegExp Arn.

Lemma globRegex_append a b : globRegex (a +:+ b) = globRegex a ++ globRegex b.
Proof. unfold globRegex. by rewrite list_ascii_of_append, map_app. Qed.

Lemma globRegex_literal x :
  forallb (fun c => negb (isSyntaxCharacter c)) (list_ascii_of_string x) = true ->
  globRegex x = lit x.
Proof.
  unfold globRegex. induction x as [|c x IH]; simpl; [done|].
  intros [Hc Hx]%andb_prop. rewrite (IH Hx). f_equal. unfold globTerm.
  destruct (Ascii.eqb_spec c "*") as [->|_]; [done|].
  by destruct (Ascii.eqb_spec c "?") as [->|_].
Qed.

Lemma literal_plain x :
  forallb (fun c => negb (isSyntaxCharacter c)) (list_ascii_of_string x) = true ->
  forallb plain (list_ascii_of_string x) = true.
Proof.
  rewrite !forallb_forall. intros H c Hc. unfold plain. rewrite (H c Hc).
  by rewrite orb_true_r.
Qed.

(** X6.  A pattern made of literal text and a final [*] matches exactly the
    identifiers that begin with the text and go on without a line terminator;
    the call returns for every identifier. *)
Theorem matchARNPattern_prefix p s :
  forallb (fun c => negb (isSyntaxCharacter c)) (list_ascii_of_string p) = true ->
  exists b, matchARNPattern s (p +:+ "*") = Returns b /\
            (b = true <-> exists rest, s = p +:+ rest /\ all_match Dot rest = true).
Proof.
  intros Hp. eexists. split.
  - apply matchARNPattern_plain. rewrite list_ascii_of_append, forallb_app.
    by rewrite (literal_plain p Hp).
  - rewrite globRegex_append, (globRegex_literal p Hp). unfold test.
    change (globRegex "*") with [Term Dot Star false]. split.
    + destruct (exec _ s) as [caps|] eqn:He; [intros _|done].
      apply exec_sound in He. read_lit p He. read_term He.
      apply matches_end in He as [-> ->]. eexists. rewrite append_nil_r. eauto.
    + intros (rest & -> & Hrest). rewrite exec_lit, <- (append_nil_r rest).
      by erewrite exec_star.
Qed.

Lemma matchARNPattern_prefix_witness :
  exists b,
    matchARNPattern "arn:aws:s3:::my-bucket/path/to/file.txt" ("arn:aws:s3:::my-bucket/" +:+ "*")
      = Returns b /\
    (b = true <-> exists rest, "arn:aws:s3:::my-bucket/path/to/file.txt"
                               = "arn:aws:s3:::my-bucket/" +:+ rest /\
                               all_match Dot rest = true).
Proof. apply matchARNPattern_prefix. reflexivity. Defined.

Lemma matchARNPattern_literal_witness :
  matchARNPattern "arn:aws:s3:::my-bucket/path" "arn:aws:s3:::my-bucket/path" = Returns true.
Proof. apply matchARNPattern_literal. reflexivity. Defined.

End Wildcards.

(** ** The validator, the parser and the suggestions *)

Section Validator.
Import JS RegExp Arn Types PolicyCore ArnItems.

Lemma all_match_colon_free a w :
  atom_matches a ":" = false -> all_match a w = true -> free_of ":" w = true.
Proof.
  unfold all_match, free_of. intros Ha. induction w as [|c w IH]; simpl; [done|].
  intros [Hc Hw]%andb_prop. rewrite (IH Hw), andb_true_r.
  destruct (Ascii.eqb_spec c ":") as [->|]; [congruence|done].
Qed.

Lemma all_match_NotChr c w : all_match (NotChr c) w = free_of c w.
Proof. done. Qed.

(** The fields of an identifier of the shape of [arnPattern]. *)
Lemma shape_split sv r a rest :
  free_of ":" sv = true -> free_of ":" r = true -> free_of ":" a = true ->
  split ":" ("arn:aws:" +:+ sv +:+ ":" +:+ r +:+ ":" +:+ a +:+ ":" +:+ rest)
  = ["arn"; "aws"; sv; r; a] ++ split ":" rest.
Proof.
  intros Hsv Hr Ha. simpl. rewrite !split_append, !split_free by done. reflexivity.
Qed.

(** The shape [validateARN] asks for is a case of the shape as the
    specification words it. *)
Lemma arnShape_statedShape arn : arnShape arn -> statedShape arn = true.
Proof.
  intros H%arnPattern_shape%arnPattern_parts.
  destruct H as (sv & r & a & rest & -> & _ & Hsv & Hr & Ha & _).
  pose proof (all_match_colon_free lowerDigitDash _ eq_refl Hsv) as Fsv.
  pose proof (all_match_colon_free lowerDigitDash _ eq_refl Hr) as Fr.
  pose proof (all_match_colon_free digit _ eq_refl Ha) as Fa.
  unfold statedShape. rewrite shape_split by done. simpl.
  pose proof (split_nonempty ":" rest). by destruct (split ":" rest).
Qed.

Lemma validateARN_valid service arn :
  valid (validateARN service arn) = true ->
  exists r a rest,
    arn = "arn:aws:" +:+ service +:+ ":" +:+ r +:+ ":" +:+ a +:+ ":" +:+ rest /\
    service <> EmptyString /\
    all_match lowerDigitDash service = true /\ all_match lowerDigitDash r = true /\
    all_match digit a = true /\ all_match Dot rest = true.
Proof.
  unfold validateARN. destruct (String.eqb arn EmptyString); [done|].
  destruct (test arnPattern arn) eqn:Ht; [|done]. simpl.
  apply arnPattern_parts in Ht as (sv & r & a & rest & -> & Hne & Hsv & Hr & Ha & Hrest).
  pose proof (all_match_colon_free lowerDigitDash _ eq_refl Hsv) as Fsv.
  pose proof (all_match_colon_free lowerDigitDash _ eq_refl Hr) as Fr.
  pose proof (all_match_colon_free digit _ eq_refl Ha) as Fa.
  rewrite shape_split by done.
  simpl. destruct (decide (Some sv = Some service)) as [[= ->]|Hn].
  - intros _. eauto 10.
  - by rewrite bool_decide_eq_false_2.
Qed.

Lemma validateARN_shape service r a rest :
  service <> EmptyString ->
  all_match lowerDigitDash service = true -> all_match lowerDigitDash r = true ->
  all_match digit a = true -> all_match Dot rest = true ->
  validateARN service ("arn:aws:" +:+ service +:+ ":" +:+ r +:+ ":" +:+ a +:+ ":" +:+ rest)
  = {| valid := true; message := None; suggestions := None |}.
Proof.
  intros Hne Hsv Hr Ha Hrest. unfold validateARN. simpl String.eqb.
  assert (test arnPattern
            ("arn:aws:" +:+ service +:+ ":" +:+ r +:+ ":" +:+ a +:+ ":" +:+ rest) = true) as ->.
  { apply arnPattern_parts. exists service, r, a, rest. done. }
  pose proof (all_match_colon_free lowerDigitDash _ eq_refl Hsv) as Fsv.
  pose proof (all_match_colon_free lowerDigitDash _ eq_refl Hr) as Fr.
  pose proof (all_match_colon_free digit _ eq_refl Ha) as Fa.
  rewrite shape_split by done.
  simpl. by rewrite bool_decide_eq_true_2.
Qed.

(** X7.  An identifier that [validateARN] accepts parses, with partition [aws]
    and the expected service, unless nothing follows its fifth colon: such an
    identifier is accepted by [validateARN] and refused by [parseARN]. *)
Theorem validateARN_then_parseARN service arn :
  valid (validateARN service arn) = true ->
  (exists parsed, parseARN arn = Some parsed /\
                  partition parsed = "aws" /\ Arn.service parsed = service) \/
  (parseARN arn = None /\
   exists region account,
     arn = "arn:aws:" +:+ service +:+ ":" +:+ region +:+ ":" +:+ account +:+ ":").
Proof.
  intros (r & a & rest & -> & Hne & Hsv & Hr & Ha & Hrest)%validateARN_valid.
  pose proof (all_match_colon_free lowerDigitDash _ eq_refl Hsv) as Fsv.
  pose proof (all_match_colon_free lowerDigitDash _ eq_refl Hr) as Fr.
  pose proof (all_match_colon_free digit _ eq_refl Ha) as Fa.
  destruct (decide (rest = EmptyString)) as [->|Hrest'].
  - right. split; [|eauto].
    destruct (parseARN _) as [parsed|] eqn:Hp; [exfalso|done].
    destruct (parseARN_inv _ _ Hp) as (rest' & Hc & _).
    pose proof (parsePattern_fields _ _ _ _ _ _ Hc) as Hf.
    rewrite shape_split in Hf by done. simpl in Hf.
    injection Hf as _ _ _ _ Hrest'.
    destruct (parsePattern_sound _ _ Hc) as (? & ? & ? & ? & ? & [= _ _ _ _ <-] & _ & _ & _
                                              & _ & _ & _ & _ & _ & Hne').
    apply Hne'. rewrite <- (join_split ":" rest'), <- Hrest'. reflexivity.
  - left. unfold parseARN.
    change ("arn:aws:" +:+ ?t) with ("arn:" +:+ "aws" +:+ ":" +:+ t).
    rewrite parsePattern_complete by done.
    destruct (String.eqb service "s3"), (includes "/" rest), (includes ":" rest); eauto.
Qed.

Lemma validateARN_then_parseARN_witness :
  (exists parsed, parseARN "arn:aws:s3:::my-bucket/*" = Some parsed /\
                  partition parsed = "aws" /\ Arn.service parsed = "s3") \/
  (parseARN "arn:aws:s3:::my-bucket/*" = None /\
   exists region account,
     "arn:aws:s3:::my-bucket/*" = "arn:aws:" +:+ "s3" +:+ ":" +:+ region +:+ ":" +:+ account +:+ ":").
Proof. apply validateARN_then_parseARN. reflexivity. Defined.

Lemma split_self c s t : split c s = s :: t -> t = [].
Proof.
  intros H. pose proof (split_head_free c s) as Hf. rewrite H in Hf. simpl in Hf.
  rewrite (split_free c s Hf) in H. by injection H.
Qed.

(** X8.  The example [validateARN] suggests with "Invalid ARN format" is not an
    identifier it accepts, whatever the service: its account field,
    [account-id], is not made of digits. *)
Theorem validateARN_refuses_its_suggestion service :
  valid (validateARN service ("arn:aws:" +:+ service +:+ ":region:account-id:resource"))
  = false.
Proof.
  destruct (valid _) eqn:Hv; [exfalso|done].
  apply validateARN_valid in Hv as (r & a & rest & Heq & _ & Hsv & Hr & Ha & _).
  pose proof (all_match_colon_free lowerDigitDash _ eq_refl Hsv) as Fsv.
  pose proof (all_match_colon_free lowerDigitDash _ eq_refl Hr) as Fr.
  pose proof (all_match_colon_free digit _ eq_refl Ha) as Fa.
  apply (f_equal (split ":")) in Heq. rewrite shape_split in Heq by done.
  change ("arn:aws:" +:+ service +:+ ":region:account-id:resource")
    with ("arn:aws:" +:+ service +:+ String ":" "region:account-id:resource") in Heq.
  simpl in Heq. rewrite split_append, (split_free ":" service Fsv) in Heq.
  simpl in Heq. injection Heq as _ Ha' _. subst a. discriminate Ha.
Qed.

Lemma inherited_lower service :
  all_match lowerDigitDash service = true -> service ∈ objectPrototypeKeys ->
  service = "constructor".
Proof.
  intros Hs Hin. unfold objectPrototypeKeys in Hin.
  repeat (apply elem_of_cons in Hin as [->|Hin]; [try done; discriminate Hs|]).
  by apply elem_of_nil in Hin.
Qed.

(** X9.  For every service written in lower-case letters, digits and dashes,
    other than [constructor], and for every region and account of the same
    kind, or none, every identifier [generateARNSuggestions] proposes is one
    that [validateARN] accepts for that service; and it proposes at least
    one. *)
Theorem generateARNSuggestions_valid service region accountId :
  service <> EmptyString -> service <> "constructor" ->
  all_match lowerDigitDash service = true ->
  all_match lowerDigitDash (orElse region "us-east-1") = true ->
  all_match digit (orElse accountId "123456789012") = true ->
  exists patterns,
    generateARNSuggestions service region accountId = Patterns patterns /\
    patterns <> [] /\
    forall arn, arn ∈ patterns ->
      validateARN service arn = {| valid := true; message := None; suggestions := None |}.
Proof.
  intros Hne Hc Hs Hr Ha. unfold generateARNSuggestions.
  set (R := orElse region "us-east-1") in *.
  set (A := orElse accountId "123456789012") in *.
  assert (forall sv r a rest arn,
             sv = service -> all_match lowerDigitDash r = true -> all_match digit a = true ->
             all_match Dot rest = true ->
             arn = "arn:aws:" +:+ sv +:+ ":" +:+ r +:+ ":" +:+ a +:+ ":" +:+ rest ->
             validateARN service arn
             = {| valid := true; message := None; suggestions := None |}) as Hok.
  { intros sv r a rest arn -> ? ? ? ->. by apply validateARN_shape. }
  destruct (String.eqb_spec service "s3") as [E|_].
  { eexists. split; [done|]. split; [done|]. intros arn Hin.
    repeat (apply elem_of_cons in Hin as [->|Hin];
            [by (eapply (Hok "s3" "" "" _ _ (eq_sym E)); last reflexivity)|]).
    by apply elem_of_nil in Hin. }
  destruct (String.eqb_spec service "ec2") as [E|_].
  { eexists. split; [done|]. split; [done|]. intros arn Hin.
    repeat (apply elem_of_cons in Hin as [->|Hin];
            [by (eapply (Hok "ec2" R A _ _ (eq_sym E)); last reflexivity)|]).
    by apply elem_of_nil in Hin. }
  destruct (String.eqb_spec service "lambda") as [E|_].
  { eexists. split; [done|]. split; [done|]. intros arn Hin.
    repeat (apply elem_of_cons in Hin as [->|Hin];
            [by (eapply (Hok "lambda" R A _ _ (eq_sym E)); last reflexivity)|]).
    by apply elem_of_nil in Hin. }
  destruct (String.eqb_spec service "iam") as [E|_].
  { eexists. split; [done|]. split; [done|]. intros arn Hin.
    repeat (apply elem_of_cons in Hin as [->|Hin];
            [by (eapply (Hok "iam" "" A _ _ (eq_sym E)); last reflexivity)|]).
    by apply elem_of_nil in Hin. }
  destruct (String.eqb_spec service "dynamodb") as [E|_].
  { eexists. split; [done|]. split; [done|]. intros arn Hin.
    repeat (apply elem_of_cons in Hin as [->|Hin];
            [by (eapply (Hok "dynamodb" R A _ _ (eq_sym E)); last reflexivity)|]).
    by apply elem_of_nil in Hin. }
  rewrite bool_decide_eq_false_2 by (intros Hin; by apply Hc, inherited_lower).
  eexists. split; [done|]. split; [done|]. intros arn ->%list_elem_of_singleton.
  by apply (Hok service R A "*").
Qed.

Lemma generateARNSuggestions_valid_witness :
  exists patterns,
    generateARNSuggestions "sqs" None None = Patterns patterns /\
    patterns <> [] /\
    forall arn, arn ∈ patterns ->
      validateARN "sqs" arn = {| valid := true; message := None; suggestions := None |}.
Proof. apply generateARNSuggestions_valid; (discriminate || reflexivity). Defined.

(** X10.  [getFilteredARNs] is the two filters of [src/utils/arn.ts] one after
    the other; without a resource type, or with the empty text as resource
    type, it is the filter by service alone. *)
Theorem getFilteredARNs_filters st service :
  getFilteredARNs st service None = filterARNsByService (arnList st) service /\
  getFilteredARNs st service (Some EmptyString) = filterARNsByService (arnList st) service /\
  forall resourceType,
    resourceType <> EmptyString ->
    getFilteredARNs st service (Some resourceType)
    = filterARNsByResourceType (filterARNsByService (arnList st) service) resourceType.
Proof.
  unfold getFilteredARNs, filterARNsByService, filterARNsByResourceType.
  split; [done|]. split; [done|]. intros rt Hrt.
  rewrite (proj2 (String.eqb_neq rt EmptyString) Hrt).
  induction (arnList st) as [|item l IH]; simpl; [done|].
  destruct (String.eqb (ARNItem.service item) service); simpl; [|done].
  by rewrite IH.
Qed.

Lemma getFilteredARNs_filters_witness :
  let item := {| ARNItem.arn := "arn:aws:s3:::bucket1"; ARNItem.service := "s3";
                 ARNItem.resourceType := Some "bucket"; ARNItem.displayName := None;
                 ARNItem.description := None; ARNItem.tags := None |} in
  getFilteredARNs (setARNList new [item]) "s3" (Some "bucket")
  = filterARNsByResourceType (filterARNsByService [item] "s3") "bucket".
Proof.
  apply (proj2 (proj2 (getFilteredARNs_filters (setARNList new [_]) "s3"))).
  discriminate.
Defined.

End Validator.

(** ** More on the resolver *)

Section ResolverMore.
Import JS Dependencies.

Lemma reach_app config A B x :
  reach config (A ++ B) x <-> reach config A x \/ reach config B x.
Proof.
  split.
  - induction 1 as [a Ha|a e b Ha IHa He Hb].
    + apply elem_of_app in Ha as [?|?]; [left|right]; by apply reach_requested.
    + destruct IHa; [left|right]; by apply (reach_edge _ _ a e b).
  - intros [H|H]; induction H as [a Ha|a e b Ha IHa He Hb];
      try (by apply (reach_edge _ _ a e b));
      apply reach_requested, elem_of_app; auto.
Qed.

Lemma reach_ext config A B x :
  (forall a, a ∈ A <-> a ∈ B) -> reach config A x -> reach config B x.
Proof.
  intros HAB. induction 1 as [a Ha|a e b Ha IHa He Hb].
  - by apply reach_requested, HAB.
  - by apply (reach_edge _ _ a e b).
Qed.

(** X11.  Resolving two lists together gives the actions of resolving each:
    as sets, the result for [A ++ B] is the union of the results for [A] and
    for [B]. *)
Theorem resolveDependencies_union config A B :
  exists rA rB rAB,
    resolveDependencies A (Some config) = Some rA /\
    resolveDependencies B (Some config) = Some rB /\
    resolveDependencies (A ++ B) (Some config) = Some rAB /\
    forall x, x ∈ rAB <-> x ∈ rA \/ x ∈ rB.
Proof.
  destruct (resolveDependencies_returns config A) as [rA HA].
  destruct (resolveDependencies_returns config B) as [rB HB].
  destruct (resolveDependencies_returns config (A ++ B)) as [rAB HAB].
  exists rA, rB, rAB. repeat (split; [done|]). intros x.
  rewrite (proj2 (resolveDependencies_result _ _ _ HA) x),
    (proj2 (resolveDependencies_result _ _ _ HB) x),
    (proj2 (resolveDependencies_result _ _ _ HAB) x).
  split.
  - intros (a & [Ha|Ha]%reach_app & Hy); eauto.
  - intros [(a & Ha & Hy)|(a & Ha & Hy)]; exists a; rewrite reach_app; auto.
Qed.

(** X12.  The result, as a set, depends on the requested actions as a set:
    their order and their repetitions do not count. *)
Theorem resolveDependencies_set config A B :
  (forall a, a ∈ A <-> a ∈ B) ->
  exists rA rB,
    resolveDependencies A (Some config) = Some rA /\
    resolveDependencies B (Some config) = Some rB /\
    forall x, x ∈ rA <-> x ∈ rB.
Proof.
  intros HAB.
  destruct (resolveDependencies_returns config A) as [rA HA].
  destruct (resolveDependencies_returns config B) as [rB HB].
  exists rA, rB. repeat (split; [done|]). intros x.
  rewrite (proj2 (resolveDependencies_result _ _ _ HA) x),
    (proj2 (resolveDependencies_result _ _ _ HB) x).
  split; intros (a & Ha & Hy); exists a; (split; [|done]).
  - by apply (reach_ext config A B).
  - apply (reach_ext config B A); [|done]. intros b. symmetry. apply HAB.
Qed.

Lemma resolveDependencies_set_witness :
  exists rA rB,
    resolveDependencies ["s3:GetObject"; "s3:PutObject"; "s3:GetObject"]
      (Some s3Dependencies) = Some rA /\
    resolveDependencies ["s3:PutObject"; "s3:GetObject"] (Some s3Dependencies) = Some rB /\
    forall x, x ∈ rA <-> x ∈ rB.
Proof.
  apply resolveDependencies_set. intros a.
  rewrite !elem_of_cons, !elem_of_nil. naive_solver.
Defined.

(** X13.  Every requested action is resolved: the result holds the [actions]
    of its entry, or the action itself where it has no entry or its entry
    declares no [actions]. *)
Theorem resolveDependencies_requested config actions r a :
  resolveDependencies actions (Some config) = Some r ->
  a ∈ actions ->
  match dependencies config !! a ≫= Entry.actions with
  | Some acts => forall x, x ∈ acts -> x ∈ r
  | None => a ∈ r
  end.
Proof.
  intros [_ Hr]%resolveDependencies_result Ha.
  assert (forall x, x ∈ expansion config a -> x ∈ r) as Hexp.
  { intros x Hx. apply Hr. exists a. split; [by apply reach_requested|by left]. }
  unfold expansion in Hexp.
  destruct (dependencies config !! a ≫= Entry.actions); [done|]. apply Hexp. left.
Qed.

Lemma resolveDependencies_requested_witness :
  "s3:GetObject" ∈ ["s3:PutObject"; "s3:ListBucket"; "s3:GetObject"; "s3:GetBucketLocation"].
Proof.
  refine (resolveDependencies_requested s3Dependencies
            ["s3:GetObject"; "s3:PutObject"] _ "s3:GetObject" _ _ "s3:GetObject" _).
  - vm_compute. reflexivity.
  - left.
  - left.
Defined.

(** X14.  The resolver does not make actions up: every action of the result
    was requested, or is written in the table, among the [actions], the
    [dependencies] or the [requires] of an entry. *)
Theorem resolveDependencies_within config actions r x :
  resolveDependencies actions (Some config) = Some r ->
  x ∈ r ->
  x ∈ actions \/
  exists k e, dependencies config !! k = Some e /\
              (x ∈ default [] (Entry.actions e) \/ x ∈ edges e).
Proof.
  intros [_ Hr]%resolveDependencies_result (a & Ha & Hy)%Hr.
  assert (a ∈ actions \/
          exists k e, dependencies config !! k = Some e /\ a ∈ edges e) as Hreach.
  { destruct Ha as [a Ha|a e b Ha He Hb]; [by left|right; eauto]. }
  destruct Hy as [Hx|Hx].
  - unfold expansion in Hx. destruct (dependencies config !! a) as [e|] eqn:He; simpl in Hx.
    + destruct (Entry.actions e) as [acts|] eqn:Hacts.
      * right. exists a, e. rewrite Hacts. auto.
      * apply list_elem_of_singleton in Hx as ->.
        destruct Hreach as [?|(k & e' & ? & ?)]; [by left|right; eauto].
    + apply list_elem_of_singleton in Hx as ->.
      destruct Hreach as [?|(k & e' & ? & ?)]; [by left|right; eauto].
  - right. unfold required in Hx.
    destruct (dependencies config !! a) as [e|] eqn:He; simpl in Hx;
      [|by apply elem_of_nil in Hx].
    exists a, e. split; [done|]. right. unfold edges. rewrite elem_of_app. auto.
Qed.

Lemma resolveDependencies_within_witness :
  "s3:ListBucket" ∈ ["s3:GetObject"] \/
  exists k e, dependencies s3Dependencies !! k = Some e /\
              ("s3:ListBucket" ∈ default [] (Entry.actions e) \/ "s3:ListBucket" ∈ edges e).
Proof.
  apply (resolveDependencies_within s3Dependencies ["s3:GetObject"]
           ["s3:GetObject"; "s3:GetBucketLocation"; "s3:ListBucket"]).
  - vm_compute. reflexivity.
  - compute_done.
Defined.

Lemma loop_no_entries config fuel : forall stack set,
  (forall a, a ∈ stack -> dependencies config !! a = None) ->
  length stack < fuel ->
  loop config fuel {| resolved := set; toProcess := stack; processed := set |}
  = Some (fold_left (fun set x => add x set) stack set).
Proof.
  induction fuel as [|fuel IH]; intros stack set Hnone Hlen; [lia|].
  destruct stack as [|a stack]; simpl; [done|].
  assert (iteration config a stack
            {| resolved := set; toProcess := a :: stack; processed := set |}
          = {| resolved := add a set; toProcess := stack; processed := add a set |}) as ->.
  { unfold iteration. simpl. rewrite (Hnone a) by left. simpl.
    unfold add. by destruct (has a set). }
  apply IH; [|simpl in Hlen; lia]. intros b Hb. apply Hnone. by right.
Qed.

(** X15.  With a table that has no entry for any requested action, the result
    is the requested actions from the last to the first, every action once,
    at its last place in the request. *)
Theorem resolveDependencies_no_entries config actions :
  (forall a, a ∈ actions -> dependencies config !! a = None) ->
  resolveDependencies actions (Some config) = Some (newSet (rev actions)).
Proof.
  intros Hnone. unfold resolveDependencies, initial, newSet.
  apply loop_no_entries.
  - intros a Ha. apply Hnone. by apply elem_of_rev.
  - rewrite length_rev. lia.
Qed.

Lemma resolveDependencies_no_entries_witness :
  resolveDependencies ["ec2:RunInstances"; "ec2:StopInstances2"; "ec2:RunInstances"]
    (Some s3Dependencies)
  = Some ["ec2:RunInstances"; "ec2:StopInstances2"].
Proof.
  apply (resolveDependencies_no_entries s3Dependencies
           ["ec2:RunInstances"; "ec2:StopInstances2"; "ec2:RunInstances"]).
  intros a Ha. repeat (apply elem_of_cons in Ha as [->|Ha]; [reflexivity|]).
  by apply elem_of_nil in Ha.
Defined.

Lemma iteration_reads config config' action rest st :
  (forall k, dependencies config !! k ≫= Entry.actions
             = dependencies config' !! k ≫= Entry.actions /\
             dependencies config !! k ≫= Entry.dependencies
             = dependencies config' !! k ≫= Entry.dependencies /\
             dependencies config !! k ≫= Entry.requires
             = dependencies config' !! k ≫= Entry.requires) ->
  iteration config action rest st = iteration config' action rest st.
Proof.
  intros H. unfold iteration. destruct (H action) as (-> & -> & ->). done.
Qed.

(** X16.  The resolver reads three fields of an entry, [actions],
    [dependencies] and [requires]: two tables that agree on them give the same
    result, whatever their [soft_requires], their [description] and their
    [service]. *)
Theorem resolveDependencies_reads config config' actions :
  (forall k, dependencies config !! k ≫= Entry.actions
             = dependencies config' !! k ≫= Entry.actions /\
             dependencies config !! k ≫= Entry.dependencies
             = dependencies config' !! k ≫= Entry.dependencies /\
             dependencies config !! k ≫= Entry.requires
             = dependencies config' !! k ≫= Entry.requires) ->
  resolveDependencies actions (Some config) = resolveDependencies actions (Some config').
Proof.
  intros H.
  destruct (resolveDependencies_returns config actions) as [r Hr].
  destruct (resolveDependencies_returns config' actions) as [r' Hr'].
  rewrite Hr, Hr'. unfold resolveDependencies in *.
  set (n := S (length actions + pending config [])) in *.
  set (n' := S (length actions + pending config' [])) in *.
  assert (forall fuel st, loop config fuel st = loop config' fuel st) as Hloop.
  { induction fuel as [|fuel IH]; intros st; simpl; [done|].
    destruct (toProcess st); [done|]. by rewrite (iteration_reads config config'), IH. }
  apply (loop_more config n _ _ (n + n')) in Hr; [|lia].
  apply (loop_more config' n' _ _ (n + n')) in Hr'; [|lia].
  rewrite Hloop in Hr. congruence.
Qed.

Lemma resolveDependencies_reads_witness :
  resolveDependencies ["s3:GetObject"] (Some s3Dependencies)
  = resolveDependencies ["s3:GetObject"] (Some (hinted s3Dependencies)).
Proof.
  apply resolveDependencies_reads. intros k. unfold hinted.
  cbn [dependencies]. rewrite !lookup_fmap.
  by destruct (dependencies s3Dependencies !! k).
Defined.

End ResolverMore.

(** ** More on maps and on sorting *)

Section MapMore.
Context {V : Type}.
Implicit Types (m : JSMap.t V) (k : string) (v : V).

Lemma set_absent k v m : JSMap.get k m = None -> JSMap.set k v m = m ++ [(k, v)].
Proof.
  induction m as [|[k0 v0] m IH]; simpl; [done|].
  destruct (String.eqb k0 k); [done|]. intros H. by rewrite IH.
Qed.

Lemma set_elem k v k' v' m :
  (k', v') ∈ JSMap.set k v m -> (k', v') = (k, v) \/ (k', v') ∈ m.
Proof.
  induction m as [|[k0 v0] m IH]; simpl.
  - intros ->%list_elem_of_singleton. by left.
  - destruct (String.eqb k0 k); rewrite !elem_of_cons; naive_solver.
Qed.

Lemma delete_elem k k' v' m : (k', v') ∈ JSMap.delete k m -> (k', v') ∈ m /\ k' <> k.
Proof.
  unfold JSMap.delete. rewrite list_elem_of_In, filter_In, <- list_elem_of_In. simpl.
  intros [? Hk]. split; [done|]. apply negb_true_iff in Hk. by apply String.eqb_neq.
Qed.

Lemma keys_delete_filter k m :
  JSMap.keys (JSMap.delete k m)
  = List.filter (fun k' => negb (String.eqb k' k)) (JSMap.keys m).
Proof.
  unfold JSMap.keys, JSMap.delete. induction m as [|[k0 v0] m IH]; simpl; [done|].
  destruct (String.eqb k0 k); simpl; by rewrite IH.
Qed.

Lemma NoDup_keys_delete k m : NoDup (JSMap.keys m) -> NoDup (JSMap.keys (JSMap.delete k m)).
Proof.
  rewrite keys_delete_filter. rewrite !NoDup_ListNoDup. apply List.NoDup_filter.
Qed.

Lemma get_delete k k' m :
  JSMap.get k' (JSMap.delete k m) = if String.eqb k k' then None else JSMap.get k' m.
Proof.
  unfold JSMap.delete. induction m as [|[k0 v0] m IH]; simpl; [by destruct (String.eqb k k')|].
  destruct (String.eqb_spec k0 k) as [->|Hne]; simpl.
  - rewrite IH. by destruct (String.eqb k k').
  - rewrite IH. destruct (String.eqb_spec k0 k') as [->|]; [|done].
    by rewrite (proj2 (String.eqb_neq k k')).
Qed.

Lemma set_set k v1 v2 m : JSMap.set k v2 (JSMap.set k v1 m) = JSMap.set k v2 m.
Proof.
  induction m as [|[k0 v0] m IH]; simpl; [by rewrite String.eqb_refl|].
  destruct (String.eqb k0 k) eqn:E; simpl; [by rewrite String.eqb_refl|].
  by rewrite E, IH.
Qed.

Lemma set_comm k1 v1 k2 v2 m :
  k1 <> k2 -> is_Some (JSMap.get k1 m) -> is_Some (JSMap.get k2 m) ->
  JSMap.set k1 v1 (JSMap.set k2 v2 m) = JSMap.set k2 v2 (JSMap.set k1 v1 m).
Proof.
  intros Hne. induction m as [|[k0 v0] m IH]; simpl; [by intros []|].
  destruct (String.eqb k0 k1) eqn:E1, (String.eqb k0 k2) eqn:E2; simpl.
  - apply String.eqb_eq in E1, E2. congruence.
  - intros _ _. by rewrite E1, (proj2 (String.eqb_neq k1 k2)).
  - intros _ _. by rewrite E2, (proj2 (String.eqb_neq k2 k1)).
  - intros ? ?. by rewrite E1, E2, IH.
Qed.

Lemma length_set k v m :
  length (JSMap.set k v m) = if JSMap.has k m then length m else S (length m).
Proof.
  unfold JSMap.has. induction m as [|[k0 v0] m IH]; simpl; [done|].
  destruct (String.eqb k0 k); simpl; [done|]. rewrite IH. by destruct (JSMap.get k m).
Qed.



Lemma map_values_keys (f : V -> string) m :
  (forall k v, (k, v) ∈ m -> f v = k) -> map f (JSMap.values m) = JSMap.keys m.
Proof.
  unfold JSMap.values, JSMap.keys.
  induction m as [|[k v] m IH]; intros H; simpl; [done|].
  rewrite (H k v) by left. f_equal. apply IH. intros k' v' Hin. apply H. by right.
Qed.

End MapMore.

Section Sorting.
Import JS.

Lemma insert_sorted_perm x l : insert_sorted x l ≡ₚ x :: l.
Proof.
  induction l as [|y l IH]; simpl; [done|].
  destruct (String.leb x y); [done|]. rewrite IH. apply Permutation_swap.
Qed.

Lemma sort_perm l : sort l ≡ₚ l.
Proof.
  induction l as [|x l IH]; simpl; [done|]. by rewrite insert_sorted_perm, IH.
Qed.


Lemma sort_nil l : sort l = [] <-> l = [].
Proof.
  split; [|by intros ->]. intros H. apply Permutation_nil_r. by rewrite <- H, sort_perm.
Qed.

Lemma insert_sorted_sorted x l : sorted l -> sorted (insert_sorted x l).
Proof.
  induction 1 as [|y|y z l Hyz Hl IH]; simpl.
  - constructor.
  - destruct (String.leb x y) eqn:E; constructor; try done; try constructor.
    destruct (String.leb_total x y); congruence.
  - destruct (String.leb x y) eqn:E; [by repeat constructor|].
    simpl in IH. destruct (String.leb x z) eqn:E'.
    + constructor; [|done]. destruct (String.leb_total x y); congruence.
    + by constructor.
Qed.

Lemma sort_sorted l : sorted (sort l).
Proof.
  induction l as [|x l IH]; simpl; [constructor|]. by apply insert_sorted_sorted.
Qed.

Lemma sort_of_sorted l : sorted l -> sort l = l.
Proof.
  induction 1 as [|y|y z l Hyz Hl IH]; simpl; [done..|].
  simpl in IH. rewrite IH. simpl. by rewrite Hyz.
Qed.

Lemma sort_idem l : sort (sort l) = sort l.
Proof. apply sort_of_sorted, sort_sorted. Qed.

End Sorting.

(** ** The states of an engine *)

Section States.
Import JS Types PolicyCore.

Lemma has_keys {V} k (m : JSMap.t V) : JSMap.has k m = true <-> k ∈ JSMap.keys m.
Proof.
  unfold JSMap.has. pose proof (get_None k m) as H.
  destruct (JSMap.get k m); split; try done.
  - intros _. destruct (decide (k ∈ JSMap.keys m)) as [|Hn]; [done|].
    apply H in Hn. done.
  - intros Hin. exfalso. by apply (proj1 H).
Qed.

Lemma has_same_keys {V W} k (m : JSMap.t V) (m' : JSMap.t W) :
  JSMap.keys m = JSMap.keys m' -> JSMap.has k m = JSMap.has k m'.
Proof.
  intros Hk. pose proof (has_keys k m) as H. pose proof (has_keys k m') as H'.
  rewrite Hk in H. destruct (JSMap.has k m), (JSMap.has k m'); try done.
  - symmetry. apply H', H. done.
  - apply H, H'. done.
Qed.

Lemma reachable_wellFormed st : reachable st -> wellFormed st.
Proof.
  induction 1 as [|st r _ IH|st rid _ IH|st rid acts _ IH|st rid arn _ IH
                 |st arns _ IH|st f _ IH|st al _ IH|st w _ IH Hreg|st _ IH];
    try destruct IH as (Hk & Hnd & Hres & Hsel & Hdep).
  - split; [done|]. split; [apply NoDup_nil_2|].
    split; [intros k r H; by apply elem_of_nil in H|].
    split; [intros k s H; by apply elem_of_nil in H|done].
  - unfold wellFormed, addResource. simpl.
    rewrite keys_set, (has_same_keys _ _ _ Hk).
    assert (forall k r', (k, r') ∈ JSMap.set (AWSResource.id r) r (resources st) ->
                         AWSResource.id r' = k) as Hres'.
    { intros k r' [[= -> ->]|?]%set_elem; [done|by apply Hres]. }
    destruct (JSMap.has (AWSResource.id r) (selections st)) eqn:Hhas.
    + done.
    + rewrite keys_set, Hhas, Hk. split; [done|].
      split.
      { apply NoDup_app. split; [done|]. split; [|apply NoDup_singleton].
        intros x Hx ->%list_elem_of_singleton. apply has_keys in Hx. congruence. }
      split; [done|]. split; [|done].
      intros k s [[= -> ->]|?]%set_elem; [|by apply Hsel].
      split; [done|]. intros _. apply NoDup_nil_2.
  - unfold wellFormed, removeResource. simpl.
    rewrite !keys_delete_filter, Hk. split; [done|].
    split; [rewrite <- keys_delete_filter; by apply NoDup_keys_delete|].
    split; [intros k r [? _]%delete_elem; by apply Hres|].
    split; [|done]. intros k s [? _]%delete_elem. by apply Hsel.
  - unfold wellFormed. rewrite setActions_keys, setActions_resources.
    split; [done|]. split; [done|]. split; [done|].
    unfold setActions.
    destruct (JSMap.get rid (selections st)) as [sel|] eqn:Hg; [|done].
    simpl. split; [|done].
    intros k s [[= -> ->]|?]%set_elem; [|by apply Hsel]. simpl.
    split; [|intros _; apply NoDup_newSet].
    by apply (Hsel _ _ (get_Some_elem _ _ _ Hg)).
  - unfold wellFormed. rewrite setARN_keys, setARN_resources.
    split; [done|]. split; [done|]. split; [done|].
    unfold setARN.
    destruct (JSMap.get rid (selections st)) as [sel|] eqn:Hg; [|done].
    simpl. split; [|done].
    intros k s [[= -> ->]|?]%set_elem; [|by apply Hsel]. simpl.
    by apply (Hsel _ _ (get_Some_elem _ _ _ Hg)).
  - done.
  - split; [done|]. split; [done|]. split; [done|]. split; [|done].
    intros k s Hin. split; [by apply (Hsel k s)|]. simpl. discriminate.
  - unfold wellFormed. rewrite (keys_sortInPlace al st).
    split; [done|]. split; [done|]. split; [done|]. split; [|done].
    intros k s ([k0 s0] & Heq & Hin)%list_elem_of_fmap. simpl in Heq.
    destruct (Hsel _ _ Hin) as [Hid Hnd0].
    destruct (al k0); injection Heq as -> ->; simpl; [|done].
    split; [done|]. intros Hnone. rewrite sort_perm. by apply Hnd0.
  - unfold wellFormed. rewrite (keys_writeInPlace w st).
    split; [done|]. split; [done|]. split; [done|]. split; [|done].
    intros k s ([k0 s0] & Heq & Hin)%list_elem_of_fmap. simpl in Heq.
    injection Heq as -> ->. simpl. split; [by apply (Hsel _ _ Hin)|].
    intros Hnone. by destruct Hreg.
  - split; [done|]. split; [apply NoDup_nil_2|].
    split; [intros k r H; by apply elem_of_nil in H|].
    split; [intros k s H; by apply elem_of_nil in H|done].
Qed.

(** X17.  In every state of an engine the two lists of [getState] go
    together: the ids of the resources are the resource ids of the
    selections, in the same order, and no id comes twice. *)
Theorem getState_aligned st :
  reachable st ->
  map AWSResource.id (Snapshot.resources (getState st))
  = map Selection.resourceId (Snapshot.selections (getState st)) /\
  NoDup (map Selection.resourceId (Snapshot.selections (getState st))).
Proof.
  intros (Hk & Hnd & Hres & Hsel & _)%reachable_wellFormed. simpl.
  rewrite (map_values_keys AWSResource.id (resources st) Hres).
  rewrite (map_values_keys Selection.resourceId (selections st)).
  - done.
  - intros k s Hin. by apply (Hsel k s).
Qed.

Lemma getState_aligned_witness :
  let st := setActions (addResource (addResource new (sampleResource "s3-test" "s3"))
                          (sampleResource "ec2-test" "ec2")) "s3-test" ["s3:GetObject"] in
  map AWSResource.id (Snapshot.resources (getState st))
  = map Selection.resourceId (Snapshot.selections (getState st)) /\
  NoDup (map Selection.resourceId (Snapshot.selections (getState st))).
Proof.
  apply getState_aligned.
  apply reachable_setActions, reachable_addResource, reachable_addResource, reachable_new.
Defined.

(** X18.  As long as no resolver has been registered, the actions of a
    selection are a set in every state of the engine: no action comes twice,
    whatever lists [setActions] was given.  (A registered resolver is handed
    the array itself and may write a duplicate into it.) *)
Theorem selection_actions_NoDup st selection :
  reachable st ->
  dependencyResolver st = None ->
  selection ∈ Snapshot.selections (getState st) ->
  NoDup (Selection.actions selection).
Proof.
  intros (_ & _ & _ & Hsel & _)%reachable_wellFormed Hnone Hin. simpl in Hin.
  apply list_elem_of_fmap in Hin as ([k s] & -> & Hin). by apply (Hsel k s).
Qed.

Lemma selection_actions_NoDup_witness :
  NoDup ["s3:GetObject"; "s3:PutObject"].
Proof.
  apply (selection_actions_NoDup
           (setActions (addResource new (sampleResource "s3-test" "s3")) "s3-test"
              ["s3:GetObject"; "s3:PutObject"; "s3:GetObject"])
           {| Selection.resourceId := "s3-test";
              Selection.actions := ["s3:GetObject"; "s3:PutObject"];
              Selection.arn := None |}).
  - apply reachable_setActions, reachable_addResource, reachable_new.
  - reflexivity.
  - left.
Defined.

(** With a registered resolver the actions of a selection need not be a set:
    a resolver that appends the first action to the array it is given leaves
    it there. *)
Lemma registered_resolver_writes :
  let st := setActions
              (setDependencyResolver (addResource new (sampleResource "s3-test" "s3"))
                 (fun actions => actions))
              "s3-test" ["x"; "y"] in
  let st' := writeInPlace (fun _ actions => actions ++ take 1 actions) st in
  reachable st' /\
  Snapshot.selections (getState st')
  = [{| Selection.resourceId := "s3-test"; Selection.actions := ["x"; "y"; "x"];
        Selection.arn := None |}].
Proof.
  split; [|done].
  apply reachable_generatePolicy_resolver; [|done].
  apply reachable_setActions, reachable_setDependencyResolver,
    reachable_addResource, reachable_new.
Qed.

(** X19.  The table of the engine itself is never filled: in every state of
    an engine without a registered resolver, [resolveDependencies] returns the
    first occurrence of every action it is given, and nothing else. *)
Theorem resolveDependencies_default st actions :
  reachable st -> dependencyResolver st = None ->
  resolveDependencies st actions = newSet actions.
Proof.
  intros (_ & _ & _ & _ & Hdep)%reachable_wellFormed Hres.
  unfold resolveDependencies. rewrite Hres, Hdep.
  generalize (newSet actions). induction actions as [|a actions IH]; simpl; done.
Qed.

Lemma resolveDependencies_default_witness :
  resolveDependencies (addResource new (sampleResource "s3-test" "s3"))
    ["s3:GetObject"; "s3:GetObject"]
  = ["s3:GetObject"].
Proof.
  apply (resolveDependencies_default _ ["s3:GetObject"; "s3:GetObject"]).
  - apply reachable_addResource, reachable_new.
  - reflexivity.
Defined.

End States.

(** ** How the methods compose *)

Section Composition.
Import JS Types PolicyCore.

(** X20.  [setActions] and [setARN] can be called in either order, on the same
    resource or on two: the engine ends in the same state. *)
Theorem setActions_setARN_commute st i actions j arn :
  setARN (setActions st i actions) j arn = setActions (setARN st j arn) i actions.
Proof.
  unfold setARN, setActions. destruct (String.eqb_spec i j) as [->|Hne].
  - destruct (JSMap.get j (selections st)) as [s|] eqn:E; simpl; [|by rewrite E].
    rewrite !get_set, !String.eqb_refl. unfold with_selections. simpl.
    by rewrite !set_set.
  - pose proof (proj2 (String.eqb_neq i j) Hne) as Hij.
    assert (String.eqb j i = false) as Hji by (apply String.eqb_neq; congruence).
    destruct (JSMap.get i (selections st)) as [si|] eqn:Ei;
      destruct (JSMap.get j (selections st)) as [sj|] eqn:Ej; simpl;
      rewrite ?get_set, ?Hij, ?Hji, ?Ei, ?Ej; try done.
    unfold with_selections. simpl. f_equal. apply set_comm; eauto; congruence.
Qed.

End Composition.

(** ** The document *)

Section Documents.
Import JS Types PolicyCore.

Lemma fold_left_ext_in {A B} (f g : A -> B -> A) (l : list B) : forall a,
  (forall x, x ∈ l -> forall acc, f acc x = g acc x) ->
  fold_left f l a = fold_left g l a.
Proof.
  induction l as [|x l IH]; intros a H; simpl; [done|].
  rewrite (H x) by left. apply IH. intros y Hy. apply H. by right.
Qed.

(** What a step of the first pass reads of the engine. *)
Lemma generate_step_ext st st' acc sel :
  JSMap.get (Selection.resourceId sel) (resources st)
  = JSMap.get (Selection.resourceId sel) (resources st') ->
  resolveDependencies st (Selection.actions sel)
  = resolveDependencies st' (Selection.actions sel) ->
  generate_step st acc sel = generate_step st' acc sel.
Proof. intros Hres Hdep. unfold generate_step. by rewrite Hres, Hdep. Qed.

(** And of the selection. *)
Lemma generate_step_selection st acc sel sel' :
  Selection.resourceId sel = Selection.resourceId sel' ->
  Selection.arn sel = Selection.arn sel' ->
  (Selection.actions sel = [] <-> Selection.actions sel' = []) ->
  sort (resolveDependencies st (Selection.actions sel))
  = sort (resolveDependencies st (Selection.actions sel')) ->
  generate_step st acc sel = generate_step st acc sel'.
Proof.
  destruct sel as [rid acts arn], sel' as [rid' acts' arn']. simpl.
  intros <- <- Hnil Hsort. unfold generate_step. simpl.
  destruct acts as [|a acts], acts' as [|a' acts']; try done.
  - discriminate (proj1 Hnil eq_refl).
  - discriminate (proj2 Hnil eq_refl).
  - by rewrite Hsort.
Qed.

Lemma addResource_fresh_document st resource :
  reachable st ->
  JSMap.get (AWSResource.id resource) (selections st) = None ->
  generatePolicy (addResource st resource) = generatePolicy st.
Proof.
  intros (Hk & Hnd & Hres & Hsel & _)%reachable_wellFormed Hnone.
  unfold generatePolicy, statements. do 3 f_equal. simpl.
  unfold JSMap.has. rewrite Hnone, (set_absent _ _ _ Hnone).
  unfold JSMap.values. rewrite map_app, fold_left_app. simpl.
  apply fold_left_ext_in. intros sel ([k s] & -> & Hin)%list_elem_of_fmap acc. simpl.
  apply generate_step_ext; [|done]. simpl. rewrite get_set.
  destruct (String.eqb_spec (AWSResource.id resource) (Selection.resourceId s)) as [E|]; [|done].
  exfalso. apply get_None in Hnone. apply Hnone. rewrite E.
  destruct (Hsel _ _ Hin) as [-> _]. apply list_elem_of_fmap. by exists (k, s).
Qed.

(** X21.  Adding a resource that has no selection yet does not change the
    document: a resource counts only once it has actions. *)
Theorem generatePolicy_addResource st resource :
  reachable st ->
  JSMap.get (AWSResource.id resource) (selections st) = None ->
  generatePolicy (addResource st resource) = generatePolicy st.
Proof. apply addResource_fresh_document. Qed.

Lemma generatePolicy_addResource_witness :
  let st := setActions (addResource new (sampleResource "s3-test" "s3"))
              "s3-test" ["s3:GetObject"] in
  generatePolicy (addResource st (sampleResource "ec2-test" "ec2")) = generatePolicy st.
Proof.
  apply generatePolicy_addResource.
  - apply reachable_setActions, reachable_addResource, reachable_new.
  - reflexivity.
Defined.

(** X22.  A resource that is removed and added again comes back without
    actions and without identifier, and the document is the one from before it
    came back: what was selected for it is gone. *)
Theorem removeResource_then_addResource st resource :
  reachable st ->
  let st' := addResource (removeResource st (AWSResource.id resource)) resource in
  JSMap.get (AWSResource.id resource) (selections st')
  = Some {| Selection.resourceId := AWSResource.id resource;
            Selection.actions := []; Selection.arn := None |} /\
  generatePolicy st' = generatePolicy (removeResource st (AWSResource.id resource)).
Proof.
  intros Hreach st'.
  assert (JSMap.get (AWSResource.id resource)
            (selections (removeResource st (AWSResource.id resource))) = None) as Hnone.
  { simpl. by rewrite get_delete, String.eqb_refl. }
  split.
  - unfold st', addResource. simpl in *. unfold JSMap.has. rewrite Hnone.
    by rewrite get_set, String.eqb_refl.
  - apply addResource_fresh_document; [|done]. by apply reachable_removeResource.
Qed.

Lemma removeResource_then_addResource_witness :
  let st := setActions (addResource new (sampleResource "s3-test" "s3"))
              "s3-test" ["s3:GetObject"] in
  let st' := addResource (removeResource st "s3-test") (sampleResource "s3-test" "s3") in
  JSMap.get "s3-test" (selections st')
  = Some {| Selection.resourceId := "s3-test"; Selection.actions := [];
            Selection.arn := None |} /\
  generatePolicy st' = generatePolicy (removeResource st "s3-test").
Proof.
  apply (removeResource_then_addResource
           (setActions (addResource new (sampleResource "s3-test" "s3"))
              "s3-test" ["s3:GetObject"])
           (sampleResource "s3-test" "s3")).
  apply reachable_setActions, reachable_addResource, reachable_new.
Defined.

End Documents.

(** ** What the document holds *)

Section Emitted.
Import JS Types PolicyCore.

Lemma get_Some_value {V} k (v : V) m : JSMap.get k m = Some v -> v ∈ JSMap.values m.
Proof.
  intros H%get_Some_elem. unfold JSMap.values. apply list_elem_of_fmap. by exists (k, v).
Qed.

Lemma length_set_le {V} k (v : V) m :
  length m <= length (JSMap.set k v m) <= S (length m).
Proof. rewrite length_set. destruct (JSMap.has k m); lia. Qed.

Lemma length_generate_step st acc sel :
  length acc <= length (generate_step st acc sel)
  <= length acc + (if hasActions sel then 1 else 0).
Proof.
  unfold generate_step, hasActions. destruct (Selection.actions sel); [lia|].
  destruct (JSMap.get _ (resources st)); [|lia].
  match goal with |- context [JSMap.get ?k acc] =>
    destruct (JSMap.get k acc) as [existing|] eqn:E end.
  - destruct (PolicyStatement.Action existing); [lia|].
    rewrite length_set. unfold JSMap.has. rewrite E. lia.
  - match goal with |- context [JSMap.set ?k ?v acc] =>
      pose proof (length_set_le k v acc) end. lia.
Qed.

Lemma length_generate_step_pos st acc sel resource :
  Selection.actions sel <> [] ->
  JSMap.get (Selection.resourceId sel) (resources st) = Some resource ->
  0 < length (generate_step st acc sel).
Proof.
  intros Hne Hres. unfold generate_step. rewrite Hres.
  destruct (Selection.actions sel); [done|].
  match goal with |- context [JSMap.get ?k acc] =>
    destruct (JSMap.get k acc) as [existing|] eqn:E end.
  - apply get_Some_elem in E.
    assert (0 < length acc) by (destruct acc; [by apply elem_of_nil in E|simpl; lia]).
    destruct (PolicyStatement.Action existing); [done|].
    match goal with |- context [JSMap.set ?k ?v acc] =>
      pose proof (length_set_le k v acc) end. lia.
  - rewrite length_set. unfold JSMap.has. rewrite E. lia.
Qed.

Lemma length_fold_generate st sels : forall acc,
  length acc <= length (fold_left (generate_step st) sels acc)
  <= length acc + length (List.filter hasActions sels).
Proof.
  induction sels as [|sel sels IH]; intros acc; simpl; [lia|].
  pose proof (length_generate_step st acc sel).
  pose proof (IH (generate_step st acc sel)).
  destruct (hasActions sel); simpl; lia.
Qed.

Lemma length_fold_optimize l : forall groups,
  length groups <= length (fold_left optimize_step l groups) <= length groups + length l.
Proof.
  induction l as [|s l IH]; intros groups; simpl; [lia|].
  pose proof (IH (optimize_step groups s)).
  assert (length groups <= length (optimize_step groups s) <= S (length groups)).
  { unfold optimize_step. destruct (JSMap.get _ groups); apply length_set_le. }
  lia.
Qed.

Lemma length_values {V} (m : JSMap.t V) : length (JSMap.values m) = length m.
Proof. unfold JSMap.values. by rewrite length_map. Qed.

Lemma optimizeStatements_nil l : optimizeStatements l = [] <-> l = [].
Proof.
  split; [|by intros ->]. destruct l as [|s l]; [done|]. intros H.
  apply (f_equal (@length _)) in H. unfold optimizeStatements in H.
  rewrite length_values in H. simpl in H.
  pose proof (length_fold_optimize l (optimize_step [] s)).
  assert (0 < length (optimize_step [] s)) by (unfold optimize_step; simpl; lia).
  lia.
Qed.

Lemma length_document st :
  length (Statement (generatePolicy st))
  <= length (List.filter hasActions (JSMap.values (selections st))).
Proof.
  simpl. unfold optimizeStatements, statements. rewrite length_values.
  pose proof (length_fold_optimize
                (JSMap.values (fold_left (generate_step st) (JSMap.values (selections st)) []))
                []).
  rewrite length_values in *.
  pose proof (length_fold_generate st (JSMap.values (selections st)) []). simpl in *. lia.
Qed.

(** X23.  The document has at most one statement for each selection that has
    actions. *)
Theorem generatePolicy_length st :
  length (Statement (generatePolicy st))
  <= length (List.filter hasActions (Snapshot.selections (getState st))).
Proof. apply length_document. Qed.

(** X24.  The document of an engine has no statement exactly when no
    selection has an action. *)
Theorem generatePolicy_empty st :
  reachable st ->
  Statement (generatePolicy st) = [] <->
  forall sel, sel ∈ Snapshot.selections (getState st) -> Selection.actions sel = [].
Proof.
  intros (Hk & Hnd & Hres & Hsel & _)%reachable_wellFormed. split.
  - intros Hnil sel Hin. simpl in Hin.
    destruct (Selection.actions sel) as [|a l] eqn:Ha; [done|]. exfalso.
    simpl in Hnil. apply (proj1 (optimizeStatements_nil _)) in Hnil.
    unfold statements in Hnil.
    apply (f_equal (@length _)) in Hnil. rewrite length_values in Hnil. simpl in Hnil.
    destruct (list_elem_of_split _ _ Hin) as (l1 & l2 & Hl). rewrite Hl in Hnil.
    rewrite fold_left_app in Hnil. simpl in Hnil.
    assert (exists resource,
               JSMap.get (Selection.resourceId sel) (resources st) = Some resource)
      as [resource Hr].
    { apply list_elem_of_fmap in Hin as ([k s] & -> & Hin). simpl.
      destruct (Hsel _ _ Hin) as [-> _].
      assert (k ∈ JSMap.keys (resources st)) as Hkeys.
      { rewrite Hk. apply list_elem_of_fmap. by exists (k, s). }
      destruct (JSMap.get k (resources st)) as [r|] eqn:E; [eauto|].
      by apply get_None in E. }
    pose proof (length_generate_step_pos st (fold_left (generate_step st) l1 []) sel resource)
      as Hpos.
    pose proof (length_fold_generate st l2
                  (generate_step st (fold_left (generate_step st) l1 []) sel)).
    rewrite Ha in Hpos. specialize (Hpos ltac:(done) Hr). lia.
  - intros Hall. pose proof (length_document st) as Hlen.
    assert (forall l, (forall sel, sel ∈ l -> Selection.actions sel = []) ->
                      List.filter hasActions l = []) as Hfilter.
    { induction l as [|x l IH]; intros Hl; simpl; [done|].
      unfold hasActions at 1. rewrite (Hl x) by left. apply IH.
      intros y Hy. apply Hl. by right. }
    simpl in Hall. rewrite (Hfilter _ Hall) in Hlen.
    destruct (Statement (generatePolicy st)); [done|simpl in Hlen; lia].
Qed.

Lemma generatePolicy_empty_witness :
  Statement (generatePolicy (addResource new (sampleResource "s3-test" "s3"))) = [] <->
  forall sel,
    sel ∈ Snapshot.selections (getState (addResource new (sampleResource "s3-test" "s3"))) ->
    Selection.actions sel = [].
Proof. apply generatePolicy_empty, reachable_addResource, reachable_new. Defined.

Lemma generate_step_fromSelection st acc sel :
  sel ∈ JSMap.values (selections st) ->
  (forall s, s ∈ JSMap.values acc -> fromSelection st s) ->
  forall s, s ∈ JSMap.values (generate_step st acc sel) -> fromSelection st s.
Proof.
  intros Hsel Hall s. unfold generate_step.
  destruct (Selection.actions sel) as [|a l] eqn:Ha; [apply Hall|].
  destruct (JSMap.get _ (resources st)); [|apply Hall].
  match goal with |- context [JSMap.get ?k acc] =>
    destruct (JSMap.get k acc) as [existing|] eqn:E end.
  - destruct (PolicyStatement.Action existing); [apply Hall|].
    intros [->|Hs]%values_set_elem; [|by apply Hall].
    destruct (Hall existing (get_Some_value _ _ _ E)) as (He & Hc & _ & Hr).
    repeat split; simpl; eauto.
  - intros [->|Hs]%values_set_elem; [|by apply Hall].
    repeat split; simpl; eauto. exists sel. by rewrite Ha.
Qed.

Lemma statements_fromSelection st s : s ∈ statements st -> fromSelection st s.
Proof.
  unfold statements.
  assert (forall sels acc,
             (forall sel, sel ∈ sels -> sel ∈ JSMap.values (selections st)) ->
             (forall s, s ∈ JSMap.values acc -> fromSelection st s) ->
             forall s, s ∈ JSMap.values (fold_left (generate_step st) sels acc) ->
                       fromSelection st s) as Hfold.
  { induction sels as [|sel sels IH]; intros acc Hsub Hacc; simpl; [done|].
    apply IH; [intros x Hx; apply Hsub; by right|].
    apply generate_step_fromSelection; [|done]. apply Hsub. left. }
  apply Hfold; [done|]. intros s' Hs'. by apply elem_of_nil in Hs'.
Qed.

(** The second pass changes the actions of a statement, and nothing else of
    it. *)
Lemma optimizeStatements_keeps (P : PolicyStatement.t -> Prop) l :
  (forall s a, P s -> P (with_Action s (Many a))) ->
  (forall s, s ∈ l -> P s) ->
  forall o, o ∈ optimizeStatements l -> P o.
Proof.
  intros Hclosed. unfold optimizeStatements.
  assert (forall l groups,
             (forall s, s ∈ l -> P s) ->
             (forall o, o ∈ JSMap.values groups -> P o) ->
             forall o, o ∈ JSMap.values (fold_left optimize_step l groups) -> P o) as Hfold.
  { clear l. induction l as [|s l IH]; intros groups Hl Hg; simpl; [done|].
    apply IH; [intros x Hx; apply Hl; by right|].
    intros o. unfold optimize_step.
    destruct (JSMap.get _ groups) as [existing|] eqn:E.
    - intros [->|Ho]%values_set_elem; [|by apply Hg].
      apply Hclosed, Hg. by eapply get_Some_value.
    - intros [->|Ho]%values_set_elem; [|by apply Hg]. apply Hl. left. }
  intros Hl. apply Hfold; [done|]. intros o Ho. by apply elem_of_nil in Ho.
Qed.

(** X25.  Every statement of the document allows, without condition, a list
    of actions on one resource: the identifier of a selection that has
    actions, or [*] when that selection has no identifier. *)
Theorem generatePolicy_statement_shape st o :
  o ∈ Statement (generatePolicy st) ->
  PolicyStatement.Effect o = Allow /\
  PolicyStatement.Condition o = None /\
  (exists l, PolicyStatement.Action o = Many l) /\
  exists sel, sel ∈ Snapshot.selections (getState st) /\
              Selection.actions sel <> [] /\
              PolicyStatement.Resource o = One (orElse (Selection.arn sel) "*").
Proof.
  simpl. apply (optimizeStatements_keeps (fromSelection st)).
  - intros s a (He & Hc & _ & Hr). repeat split; simpl; eauto.
  - apply statements_fromSelection.
Qed.

Lemma generatePolicy_statement_shape_witness :
  let st := setActions (addResource new (sampleResource "s3-test" "s3"))
              "s3-test" ["s3:GetObject"] in
  let o := {| PolicyStatement.Effect := Allow;
              PolicyStatement.Action := Many ["s3:GetObject"];
              PolicyStatement.Resource := One "*";
              PolicyStatement.Condition := None |} in
  PolicyStatement.Effect o = Allow /\
  PolicyStatement.Condition o = None /\
  (exists l, PolicyStatement.Action o = Many l) /\
  exists sel, sel ∈ Snapshot.selections (getState st) /\
              Selection.actions sel <> [] /\
              PolicyStatement.Resource o = One (orElse (Selection.arn sel) "*").
Proof.
  apply (generatePolicy_statement_shape
           (setActions (addResource new (sampleResource "s3-test" "s3"))
              "s3-test" ["s3:GetObject"])).
  vm_compute. left.
Defined.

Lemma resolveDependencies_sortInPlace aliased st l :
  resolveDependencies (sortInPlace aliased st) l = resolveDependencies st l.
Proof. reflexivity. Qed.

Lemma statements_sortInPlace aliased st :
  (forall l, sort (resolveDependencies st (sort l)) = sort (resolveDependencies st l)) ->
  statements (sortInPlace aliased st) = statements st.
Proof.
  intros Hsort. unfold statements. f_equal. simpl.
  generalize (@nil (string * PolicyStatement.t)).
  induction (selections st) as [|[k sel] m IH]; intros acc; simpl; [done|].
  rewrite <- IH. f_equal.
  transitivity (generate_step st acc
                  (if aliased k
                   then {| Selection.resourceId := Selection.resourceId sel;
                           Selection.actions := sort (Selection.actions sel);
                           Selection.arn := Selection.arn sel |}
                   else sel)).
  - destruct (aliased k); by apply generate_step_ext.
  - destruct (aliased k); [|done].
    apply generate_step_selection; simpl; [done|done|apply sort_nil|apply Hsort].
Qed.

(** X26.  Generating the document sorts, in place, the actions of the
    selections whose array the resolver returned.  When the sorted result of
    the resolver does not depend on the order of the actions it is given, the
    next call gives the same document. *)
Theorem generatePolicy_again aliased st :
  (forall l, sort (resolveDependencies st (sort l)) = sort (resolveDependencies st l)) ->
  generatePolicy (sortInPlace aliased st) = generatePolicy st.
Proof. intros Hsort. unfold generatePolicy. by rewrite statements_sortInPlace. Qed.

Lemma generatePolicy_again_witness :
  let st := setActions
              (setDependencyResolver (addResource new (sampleResource "s3-test" "s3"))
                 (fun actions => actions))
              "s3-test" ["s3:PutObject"; "s3:GetObject"] in
  generatePolicy (sortInPlace (fun _ => true) st) = generatePolicy st.
Proof.
  apply generatePolicy_again. intros l. simpl. apply sort_idem.
Defined.








End Emitted.

(** ** The key of the first pass *)

Section Keys.
Import JS Types PolicyCore.








End Keys.
